(** * Chatbot widget: route visibility, error containment, title watchdog,
      and the local conversation engine

    A shallow embedding of [src/TawkChatbot.jsx], [src/VeeyaaChatbot.jsx]
    and the dispatcher [src/Chatbot.jsx].

    - JavaScript strings are sequences of UTF-16 code units; the string
      built-ins the components call ([startsWith], [includes], [trim], the
      regular expression [/\(\d+\)/]) are written out after ECMAScript.
    - The browser is an explicit [Page] record: the [window] globals the
      Tawk component reads and writes, the listener lists, the document
      head and title, the timer queue with a millisecond clock, the mounted
      Veeyaa instances, and a trace of the calls that leave the components
      (console warnings, host callbacks, widget API calls).
    - An event handler or effect is a function [Page -> Page]; time passes
      one millisecond per [tick]. *)

From Stdlib Require Import Ascii String.
From stdpp Require Import base decidable option list numbers gmap.

Set Default Proof Using "Type".
Local Open Scope N_scope.

(* ===================================================================== *)
(** * JavaScript strings *)
(* ===================================================================== *)

(** A UTF-16 code unit and a string value. *)
Abbreviation code_unit := N (only parsing).
Abbreviation jsstring := (list N) (only parsing).

(** A string literal of the source (all of them are ASCII). *)
Definition js (s : string) : jsstring := N_of_ascii <$> list_ascii_of_string s.
Global Arguments js : simpl never.

(** A string is falsy exactly when it is empty. *)
Definition truthy (s : jsstring) : bool :=
  match s with [] => false | _ :: _ => true end.

(** [String.prototype.startsWith(search)] with the default position 0:
    false when [search] is longer than the string, otherwise the comparison
    of the leading code units with [search]. *)
Definition startsWith (s search : jsstring) : bool :=
  if bool_decide (length s < length search)%nat then false
  else bool_decide (take (length search) s = search).

(** [String.prototype.includes(search)]: [search] occurs at some index,
    scanning from index 0. *)
Fixpoint includes (s search : jsstring) : bool :=
  startsWith s search ||
  match s with
  | [] => false
  | _ :: s' => includes s' search
  end.

(** WhiteSpace and LineTerminator code units, the ones [trim] strips:
    TAB, LF, VT, FF, CR, SP, NBSP, the Zs separators, LS, PS and BOM. *)
Definition isWhiteSpace (c : code_unit) : bool :=
  bool_decide (c ∈ [0x9; 0xA; 0xB; 0xC; 0xD; 0x20; 0xA0; 0x1680;
                    0x2000; 0x2001; 0x2002; 0x2003; 0x2004; 0x2005;
                    0x2006; 0x2007; 0x2008; 0x2009; 0x200A;
                    0x2028; 0x2029; 0x202F; 0x205F; 0x3000; 0xFEFF]).

Fixpoint trimStart (s : jsstring) : jsstring :=
  match s with
  | c :: s' => if isWhiteSpace c then trimStart s' else s
  | [] => []
  end.

(** [String.prototype.trim()]. *)
Definition trim (s : jsstring) : jsstring :=
  reverse (trimStart (reverse (trimStart s))).

(** [\d]: the ASCII digits. *)
Definition isDigit (c : code_unit) : bool := (0x30 <=? c) && (c <=? 0x39).

Fixpoint skipDigits (s : jsstring) : jsstring :=
  match s with
  | c :: s' => if isDigit c then skipDigits s' else s
  | [] => []
  end.

(** The regular expression [/\(\d+\)/] anchored at the start of [s]: an
    opening parenthesis, one or more digits, a closing parenthesis.  The
    greedy digit run never has to give a digit back, since what follows it
    must be [")"]. *)
Definition countAt (s : jsstring) : bool :=
  match s with
  | open :: d :: rest =>
      (open =? 0x28) && isDigit d &&
      match skipDigits rest with
      | close :: _ => close =? 0x29
      | [] => false
      end
  | _ => false
  end.

(** [s.match(/\(\d+\)/)] is truthy: the expression matches at some index. *)
Fixpoint matchesCount (s : jsstring) : bool :=
  countAt s ||
  match s with
  | [] => false
  | _ :: s' => matchesCount s'
  end.

(** The words of the specification: [m] occurs in [s]. *)
Definition contains (s m : jsstring) : Prop := ∃ a b, s = a ++ m ++ b.

(** The words of the specification: [s] holds a count in parentheses, an
    opening parenthesis, a non-empty run of digits and a closing one. *)
Definition hasCount (s : jsstring) : Prop :=
  ∃ pre ds post, s = pre ++ 0x28 :: ds ++ 0x29 :: post ∧
                 ds ≠ [] ∧ Forall (λ c, isDigit c = true) ds.

(* ===================================================================== *)
(** * Route visibility *)
(* ===================================================================== *)

(** [hideOnRoutes.some(route => location.pathname.startsWith(route))],
    the same expression in [TawkChatbot] (line 31) and [VeeyaaChatbot]
    (line 35). *)
Definition shouldHide (hideOnRoutes : list jsstring) (pathname : jsstring) : bool :=
  existsb (λ route, startsWith pathname route) hideOnRoutes.

(* ===================================================================== *)
(** * The page: globals, listeners, timers, component instances *)
(* ===================================================================== *)

(** ** The widget API object behind [window.Tawk_API] *)

(** What [window.Tawk_API.onStatusChange] holds once it is a function: the
    provider's own callback, or the [function(status) { return false; }]
    that [hideChatbot] installs. *)
Inductive StatusHandler := ProviderStatus | ReturnFalse.

(** An entry point of the widget API as the component finds it: the
    property is missing (falsy), or it is a function that returns when it
    is called, or a function that throws; the error it throws is given by
    its [message], when it has one. *)
Inductive EntryPoint :=
| Missing
| Works
| Fails (error : option jsstring).


(** The entry points the component checks for before each call, and the
    status callback. *)
Record TawkTarget := mkTarget {
  hideWidget : EntryPoint;
  showWidget : EntryPoint;
  setAttributes : EntryPoint;
  onStatusChange : option StatusHandler
}.

(** The object literal [{}]. *)
Definition emptyObject : TawkTarget := mkTarget Missing Missing Missing None.

(** [window.Tawk_API] is an object, possibly behind [new Proxy(..)] layers
    whose [get] trap reads the property of the wrapped object. *)
Inductive TawkObject :=
| Plain (o : TawkTarget)
| ProxyOf (target : TawkObject).

Fixpoint targetOf (a : TawkObject) : TawkTarget :=
  match a with
  | Plain o => o
  | ProxyOf t => targetOf t
  end.

(** An assignment to a property goes through the proxies (they have no
    [set] trap) to the wrapped object. *)
Fixpoint assignStatus (h : StatusHandler) (a : TawkObject) : TawkObject :=
  match a with
  | Plain o => Plain (mkTarget (hideWidget o) (showWidget o) (setAttributes o) (Some h))
  | ProxyOf t => ProxyOf (assignStatus h t)
  end.

Fixpoint proxyDepth (a : TawkObject) : nat :=
  match a with
  | Plain _ => 0
  | ProxyOf t => S (proxyDepth t)
  end.

(** ** Errors, rejections and their handlers *)

(** The five arguments of [window.onerror]. *)
Record ErrorArgs := mkErrorArgs {
  msg : jsstring;
  url : jsstring;
  line : N;
  col : N;
  error : option jsstring
}.

(** An [ErrorEvent] as the [error] listener reads it. *)
Record ErrorEvent := mkErrorEvent {
  message : jsstring;
  filename : jsstring
}.

(** The [reason] of an [unhandledrejection] event, when it is not
    [undefined]: its [message] and [stack] properties, when present. *)
Record Reason := mkReason {
  reason_message : option jsstring;
  reason_stack : option jsstring
}.

(** What leaves the components: console output ([ConsoleWarnError] is
    [console.warn(text, error)] with a caught error, given by its message),
    calls of host callbacks and of the widget API, calls on a dispatched
    event, the writes that the properties below count, and the timers whose
    callbacks the event loop ran. *)
Inductive event :=
| ConsoleWarn (text : jsstring) (arg : option jsstring)
| ConsoleWarnError (text : jsstring) (error : option jsstring)
| OriginalHandlerCalled (a : ErrorArgs)
| PreventDefault
| StopPropagation
| OnLoad
| OnError (text : jsstring)
| OnMessage (text : jsstring)
| ApiHideWidget
| ApiShowWidget
| ApiSetAttributes (hideOnMobile hideOnDesktop : bool)
| LoadStartWrite (t : N)
| AppendScript (src : jsstring)
| TitleWrite (t : jsstring)
| TimerFired (id : positive).

(** A value of [window.onerror]: [null], a handler of the host page (the
    model keeps the value it returns), or the function that
    [setupErrorHandling] assigns, a closure over [originalErrorHandler]. *)
Inductive Handler :=
| NoHandler
| HostHandler (returns : ErrorArgs → bool)
| TawkHandler (originalErrorHandler : Handler).

(** The test of the [window.onerror] wrapper (lines 158-160) and of the
    [error] listener (lines 172-174). *)
Definition deniedError (m u : jsstring) : bool :=
  (truthy m && (includes m (js "Tawk") || includes m (js "i18next") ||
                includes m (js "$_Tawk") || includes m (js "is not a function")))
  || (truthy u && includes u (js "tawk")).

(** Calling a value of [window.onerror] on a reported error: whether default
    handling is suppressed (the handler returned [true]), and the calls made.
    With [null] there is nothing to call.  In the wrapper, a falsy
    [originalErrorHandler] gives [return false]. *)
Fixpoint callHandler (h : Handler) (a : ErrorArgs) : bool * list event :=
  match h with
  | NoHandler => (false, [])
  | HostHandler returns => (returns a, [OriginalHandlerCalled a])
  | TawkHandler originalErrorHandler =>
      if deniedError (msg a) (url a) then
        (true, [ConsoleWarn (js "TawkChatbot: Tawk.to error caught and prevented:")
                            (Some (msg a))])
      else callHandler originalErrorHandler a
  end.

(** The [error] listener of [setupErrorHandling]. *)
Definition errorListener (e : ErrorEvent) : list event :=
  if deniedError (message e) (filename e) then
    [PreventDefault; StopPropagation;
     ConsoleWarn (js "TawkChatbot: Tawk.to error caught and prevented:")
                 (Some (message e))]
  else [].

(** The test of the [unhandledrejection] listener (lines 184-186). *)
Definition deniedRejection (reason : option Reason) : bool :=
  match reason with
  | None => false
  | Some r =>
      match reason_message r with
      | Some m => truthy m && (includes m (js "Tawk") || includes m (js "i18next") ||
                               includes m (js "$_Tawk"))
      | None => false
      end
      ||
      match reason_stack r with
      | Some s => truthy s && includes s (js "tawk")
      | None => false
      end
  end.

(** The [unhandledrejection] listener of [setupErrorHandling]. *)
Definition rejectionListener (reason : option Reason) : list event :=
  if deniedRejection reason then
    [PreventDefault;
     ConsoleWarn (js "TawkChatbot: Tawk.to promise rejection caught and prevented") None]
  else [].

(** A registered listener is a function object; [fn] is its identity, by
    which [addEventListener] recognises a function it already holds. *)
Inductive Listener := TawkListener (fn : nat).

Global Instance Listener_eq_dec : EqDecision Listener.
Proof. solve_decision. Defined.

(** ** Scripts and timers *)

(** A function prop of the host ([onLoad], [onError], [onMessage]) as the
    components use it: not supplied, or a function that returns when it is
    called, or one that throws.  No call of a prop is inside a [try]. *)
Inductive HostFn :=
| NotSupplied
| Returns
| Throws.

Global Instance HostFn_eq_dec : EqDecision HostFn.
Proof. solve_decision. Defined.

(** The test [if (onLoad)] before each call. *)
Definition supplied (f : HostFn) : bool :=
  match f with
  | NotSupplied => false
  | Returns | Throws => true
  end.

(** The [script] element of the load sequence with what its [onload] and
    [onerror] closures captured. *)
Record Script := mkScript {
  src : jsstring;
  async : bool;
  charset : jsstring;
  crossorigin : jsstring;
  script_onLoad : HostFn;
  script_onError : HostFn;
  script_shouldHide : bool;
  script_titleProtection : bool
}.

(** The callbacks handed to [setTimeout] and [setInterval], each with what
    it captured. *)
Inductive Callback :=
| Reconcile (hide enableTitleProtection : bool)
| TitleCheck (originalTitle : jsstring)
| BotReply (inst : nat) (botId : nat).

(** A pending timer; identifiers are positive, as in browsers. *)
Record Timer := mkTimer {
  tid : positive;
  due : N;
  interval : option N;
  callback : Callback
}.

(** ** The conversation engine's state *)

Inductive Sender := user | bot.

Record Message := mkMessage {
  msg_id : nat;
  text : jsstring;
  sender : Sender;
  timestamp : N
}.

(** The [useState] cells of one mounted [VeeyaaChatbot]. *)
Record ConversationState := mkConversation {
  isOpen : bool;
  messages : list Message;
  inputValue : jsstring;
  isTyping : bool
}.

(** ** The page *)

(** [Tawk_API] and [Tawk_LoadStart] are the two properties of [window]; each
    is [undefined] ([None]) or holds an object (the API object, a [Date]
    given by its time in ms).  [nextFn], [nextTimer] and [nextInstance]
    number the function objects, timers and component instances created so
    far. *)
Record Page := mkPage {
  Tawk_API : option TawkObject;
  Tawk_LoadStart : option N;
  onerror : Handler;
  errorListeners : list Listener;
  rejectionListeners : list Listener;
  nextFn : nat;
  headScripts : list Script;
  title : jsstring;
  timers : list Timer;
  nextTimer : positive;
  now : N;
  instances : gmap nat ConversationState;
  nextInstance : nat;
  trace : list event
}.

Definition setTawkAPI (a : option TawkObject) (w : Page) : Page :=
  mkPage a (Tawk_LoadStart w) (onerror w) (errorListeners w) (rejectionListeners w)
         (nextFn w) (headScripts w) (title w) (timers w) (nextTimer w) (now w)
         (instances w) (nextInstance w) (trace w).

Definition setLoadStart (t : option N) (w : Page) : Page :=
  mkPage (Tawk_API w) t (onerror w) (errorListeners w) (rejectionListeners w)
         (nextFn w) (headScripts w) (title w) (timers w) (nextTimer w) (now w)
         (instances w) (nextInstance w) (trace w).

Definition setOnerror (h : Handler) (w : Page) : Page :=
  mkPage (Tawk_API w) (Tawk_LoadStart w) h (errorListeners w) (rejectionListeners w)
         (nextFn w) (headScripts w) (title w) (timers w) (nextTimer w) (now w)
         (instances w) (nextInstance w) (trace w).

Definition setListeners (el rl : list Listener) (n : nat) (w : Page) : Page :=
  mkPage (Tawk_API w) (Tawk_LoadStart w) (onerror w) el rl
         n (headScripts w) (title w) (timers w) (nextTimer w) (now w)
         (instances w) (nextInstance w) (trace w).

Definition setHead (h : list Script) (w : Page) : Page :=
  mkPage (Tawk_API w) (Tawk_LoadStart w) (onerror w) (errorListeners w) (rejectionListeners w)
         (nextFn w) h (title w) (timers w) (nextTimer w) (now w)
         (instances w) (nextInstance w) (trace w).

Definition setTitle (t : jsstring) (w : Page) : Page :=
  mkPage (Tawk_API w) (Tawk_LoadStart w) (onerror w) (errorListeners w) (rejectionListeners w)
         (nextFn w) (headScripts w) t (timers w) (nextTimer w) (now w)
         (instances w) (nextInstance w) (trace w).

Definition setTimers (ts : list Timer) (n : positive) (w : Page) : Page :=
  mkPage (Tawk_API w) (Tawk_LoadStart w) (onerror w) (errorListeners w) (rejectionListeners w)
         (nextFn w) (headScripts w) (title w) ts n (now w)
         (instances w) (nextInstance w) (trace w).

Definition setNow (t : N) (w : Page) : Page :=
  mkPage (Tawk_API w) (Tawk_LoadStart w) (onerror w) (errorListeners w) (rejectionListeners w)
         (nextFn w) (headScripts w) (title w) (timers w) (nextTimer w) t
         (instances w) (nextInstance w) (trace w).

Definition setInstances (m : gmap nat ConversationState) (n : nat) (w : Page) : Page :=
  mkPage (Tawk_API w) (Tawk_LoadStart w) (onerror w) (errorListeners w) (rejectionListeners w)
         (nextFn w) (headScripts w) (title w) (timers w) (nextTimer w) (now w)
         m n (trace w).

(** Append to the trace. *)
Definition emit (es : list event) (w : Page) : Page :=
  mkPage (Tawk_API w) (Tawk_LoadStart w) (onerror w) (errorListeners w) (rejectionListeners w)
         (nextFn w) (headScripts w) (title w) (timers w) (nextTimer w) (now w)
         (instances w) (nextInstance w) (trace w ++ es).

(** A page in which nothing of the package has run yet: no widget globals,
    the host's own [window.onerror] (if any), no timers, no instances. *)
Definition freshPage (hostHandler : Handler) (documentTitle : jsstring)
    (clock : N) : Page :=
  mkPage None None hostHandler [] [] 0%nat [] documentTitle [] 1%positive clock ∅ 0%nat [].

(** ** Timers and the event loop *)

(** [setTimeout(cb, delay)]: the callback runs once, [delay] ms from now. *)
Definition setTimeout (cb : Callback) (delay : N) (w : Page) : Page * positive :=
  (setTimers (timers w ++ [mkTimer (nextTimer w) (now w + delay) None cb])
             (Pos.succ (nextTimer w)) w,
   nextTimer w).

(** [setInterval(cb, delay)]: the callback runs every [delay] ms. *)
Definition setInterval (cb : Callback) (delay : N) (w : Page) : Page * positive :=
  (setTimers (timers w ++ [mkTimer (nextTimer w) (now w + delay) (Some delay) cb])
             (Pos.succ (nextTimer w)) w,
   nextTimer w).

(** [clearInterval(id)] (and [clearTimeout], which shares the identifiers). *)
Definition clearInterval (id : positive) (w : Page) : Page :=
  setTimers (filter (λ t, tid t ≠ id) (timers w)) (nextTimer w) w.

(** ** Statements that may throw *)

(** How a block of statements completes: after its last statement, or with
    a thrown error at the statement that threw, the later ones skipped. *)
Inductive Completion :=
| Normal (w : Page)
| Throw (error : option jsstring) (w : Page).

Definition andThen (c : Completion) (rest : Page → Completion) : Completion :=
  match c with
  | Normal w => rest w
  | Throw error w => Throw error w
  end.

(** [if (api.f) { api.f(..) }]: the call is made when the entry point is
    there, and it may throw. *)
Definition callIfPresent (f : EntryPoint) (call : event) (w : Page) : Completion :=
  match f with
  | Missing => Normal w
  | Works => Normal (emit [call] w)
  | Fails error => Throw error (emit [call] w)
  end.

(** [try { block } catch (error) { console.warn(text, error); }]. *)
Definition tryWarn (text : jsstring) (block : Completion) : Page :=
  match block with
  | Normal w => w
  | Throw error w => emit [ConsoleWarnError text error] w
  end.

(** ** The callbacks *)

(** [hideChatbot] (lines 39-60): the three steps share one [try] block. *)
Definition hideChatbot (enableTitleProtection : bool) (w : Page) : Page :=
  match Tawk_API w with
  | None => w
  | Some api =>
      tryWarn (js "TawkChatbot: Error hiding widget")
        (andThen (callIfPresent (hideWidget (targetOf api)) ApiHideWidget w) (λ w1,
         andThen (callIfPresent (setAttributes (targetOf api))
                                (ApiSetAttributes true true) w1) (λ w2,
         Normal
           (if enableTitleProtection &&
               bool_decide (is_Some (onStatusChange (targetOf api)))
            then setTawkAPI (Some (assignStatus ReturnFalse api)) w2
            else w2))))
  end.

(** [showChatbot] (lines 63-79). *)
Definition showChatbot (w : Page) : Page :=
  match Tawk_API w with
  | None => w
  | Some api =>
      tryWarn (js "TawkChatbot: Error showing widget")
        (andThen (callIfPresent (showWidget (targetOf api)) ApiShowWidget w) (λ w1,
         callIfPresent (setAttributes (targetOf api)) (ApiSetAttributes false false) w1))
  end.

(** The unread-notification shape of the watchdog (line 133). *)
Definition unreadShape (t : jsstring) : bool :=
  includes t (js "new message") || matchesCount t.

(** The body of the [setInterval] callback (lines 132-136). *)
Definition titleCheck (originalTitle : jsstring) (w : Page) : Page :=
  if bool_decide (title w ≠ originalTitle) then
    if unreadShape (title w)
    then emit [TitleWrite originalTitle] (setTitle originalTitle w)
    else w
  else w.

Definition botText : jsstring :=
  js "Thank you for your message! Our team will get back to you soon.".

(** The body of the [setTimeout] callback of [handleSendMessage] (lines
    85-92): two state updates of the instance that created it.  React drops
    an update of an instance that is no longer mounted. *)
Definition botReply (inst botId : nat) (w : Page) : Page :=
  match instances w !! inst with
  | Some st =>
      setInstances
        (<[inst := mkConversation (isOpen st)
                     (messages st ++ [mkMessage botId botText bot (now w)])
                     (inputValue st) false]> (instances w))
        (nextInstance w) w
  | None => w
  end.

(** Running a callback.  None of them sets or clears a timer. *)
Definition runCallback (cb : Callback) (w : Page) : Page :=
  match cb with
  | Reconcile hide enableTitleProtection =>
      if hide then hideChatbot enableTitleProtection w else showChatbot w
  | TitleCheck originalTitle => titleCheck originalTitle w
  | BotReply inst botId => botReply inst botId w
  end.

(** ** The event loop *)

Definition isDue (t : N) (tm : Timer) : bool := due tm <=? t.

(** A timer that came due leaves the queue, or is armed again when it is an
    interval. *)
Definition rearm (t : N) (tm : Timer) : option Timer :=
  if isDue t tm then
    match interval tm with
    | Some period => Some (mkTimer (tid tm) (due tm + period) (Some period) (callback tm))
    | None => None
    end
  else Some tm.

(** The event loop runs the callback of [tm]. *)
Definition fire (w : Page) (tm : Timer) : Page :=
  runCallback (callback tm) (emit [TimerFired (tid tm)] w).

(** The timers whose callbacks run when the next millisecond has passed. *)
Definition dueNow (w : Page) : list Timer :=
  filter (λ tm, isDue (now w + 1) tm = true) (timers w).

(** One millisecond passes: the clock advances and the callbacks of the
    timers that came due run, in the order the timers were set. *)
Definition tick (w : Page) : Page :=
  let t := now w + 1 in
  foldl fire (setTimers (omap (rearm t) (timers w)) (nextTimer w) (setNow t w)) (dueNow w).

(** [ms] milliseconds pass. *)
Fixpoint advance (ms : nat) (w : Page) : Page :=
  match ms with
  | O => w
  | S n => advance n (tick w)
  end.

(* ===================================================================== *)
(** * TawkChatbot *)
(* ===================================================================== *)

(** The props of the component. *)
Record Props := mkProps {
  propertyId : jsstring;
  widgetId : jsstring;
  hideOnRoutes : list jsstring;
  enableErrorHandling : bool;
  enableTitleProtection : bool;
  onLoad : HostFn;
  onError : HostFn
}.

(** [addEventListener]: a function that is already registered is not
    registered again. *)
Definition addEventListener (l : Listener) (ls : list Listener) : list Listener :=
  if bool_decide (l ∈ ls) then ls else ls ++ [l].

(** [setupErrorHandling] (lines 154-212).  Each call creates three new
    function objects (the wrapper and the two listeners) and a new proxy. *)
Definition setupErrorHandling (w : Page) : Page :=
  let w1 := setOnerror (TawkHandler (onerror w)) w in
  let w2 := setListeners
              (addEventListener (TawkListener (nextFn w1)) (errorListeners w1))
              (addEventListener (TawkListener (S (nextFn w1))) (rejectionListeners w1))
              (S (S (nextFn w1))) w1 in
  let originalTawkAPI := default (Plain emptyObject) (Tawk_API w2) in
  setTawkAPI (Some (ProxyOf originalTawkAPI)) w2.

(** The guard of the load sequence (line 82); an object and a [Date] are
    truthy. *)
Definition loadNeeded (w : Page) : bool :=
  negb (bool_decide (is_Some (Tawk_API w))) ||
  negb (bool_decide (is_Some (Tawk_LoadStart w))).

(** The [script] element the load sequence creates (lines 92-113). *)
Definition scriptFor (p : Props) (hide : bool) : Script :=
  mkScript (js "https://embed.tawk.to/" ++ propertyId p ++ js "/" ++ widgetId p)
           true (js "UTF-8") (js "*")
           (onLoad p) (onError p) hide (enableTitleProtection p).

(** The body of the effect (lines 29-139) for the current [pathname]; the
    result carries [titleCheckInterval] for the cleanup. *)
Definition effect (p : Props) (pathname : jsstring) (w : Page) : Page * option positive :=
  let hide := shouldHide (hideOnRoutes p) pathname in
  let w1 :=
    if loadNeeded w then
      let wa := if enableErrorHandling p then setupErrorHandling w else w in
      let wb := setTawkAPI (Some (default (Plain emptyObject) (Tawk_API wa))) wa in
      let wc := emit [LoadStartWrite (now wb)] (setLoadStart (Some (now wb)) wb) in
      let script := scriptFor p hide in
      emit [AppendScript (src script)] (setHead (headScripts wc ++ [script]) wc)
    else
      fst (setTimeout (Reconcile hide (enableTitleProtection p)) 100 w)
  in
  if enableTitleProtection p && hide then
    let '(w2, id) := setInterval (TitleCheck (title w1)) 500 w1 in (w2, Some id)
  else (w1, None).

(** The cleanup the effect returns (lines 140-144). *)
Definition cleanup (titleCheckInterval : option positive) (w : Page) : Page :=
  match titleCheckInterval with
  | Some id => clearInterval id w
  | None => w
  end.

(** [script.onload] (lines 98-108): [onLoad], when supplied, is called
    first; if it throws, the handler ends there and the reconciliation is
    not scheduled. *)
Definition scriptOnload (s : Script) (w : Page) : Page :=
  let schedule w1 :=
    fst (setTimeout (Reconcile (script_shouldHide s) (script_titleProtection s)) 500 w1) in
  match script_onLoad s with
  | NotSupplied => schedule w
  | Returns => schedule (emit [OnLoad] w)
  | Throws => emit [OnLoad] w
  end.

(** [script.onerror] (lines 110-113); the call of [onError] is its last
    statement. *)
Definition scriptOnerror (s : Script) (w : Page) : Page :=
  let w1 := emit [ConsoleWarn (js "TawkChatbot: Failed to load Tawk.to script") None] w in
  if supplied (script_onError s)
  then emit [OnError (js "Failed to load Tawk.to script")] w1 else w1.

(** The capturing [error] listeners of [window]; [stopPropagation] leaves
    the other listeners of the same pass running. *)
Definition runErrorListeners (e : ErrorEvent) (w : Page) : list event :=
  concat ((λ _, errorListener e) <$> errorListeners w).

Definition isStopPropagation (e : event) : bool :=
  match e with StopPropagation => true | _ => false end.

(** What the report of an error or of a rejection can leave in the trace. *)
Definition isReportEvent (e : event) : bool :=
  match e with
  | ConsoleWarn _ _ | OriginalHandlerCalled _ | PreventDefault | StopPropagation => true
  | _ => false
  end.

(** An uncaught error reported at [window]: the event is dispatched at its
    target, where the capturing listeners run first; the handler in
    [window.onerror] is a listener of the pass after them, which the
    dispatch skips when the propagation was stopped. *)
Definition reportError (a : ErrorArgs) (w : Page) : Page :=
  let heard := runErrorListeners (mkErrorEvent (msg a) (url a)) w in
  if existsb isStopPropagation heard then emit heard w
  else emit (heard ++ snd (callHandler (onerror w) a)) w.

(** An unhandled rejection reported at [window]. *)
Definition runRejectionListeners (reason : option Reason) (w : Page) : list event :=
  concat ((λ _, rejectionListener reason) <$> rejectionListeners w).

Definition reportRejection (reason : option Reason) (w : Page) : Page :=
  emit (runRejectionListeners reason w) w.

(** ** Counting in the trace *)


Definition isAppendScript (e : event) : bool :=
  match e with AppendScript _ => true | _ => false end.

Definition isLoadStartWrite (e : event) : bool :=
  match e with LoadStartWrite _ => true | _ => false end.

Definition isTitleWrite (e : event) : bool :=
  match e with TitleWrite _ => true | _ => false end.

Definition count (f : event → bool) (es : list event) : nat :=
  length (filter (λ e, f e = true) es).

(* ===================================================================== *)
(** * VeeyaaChatbot *)
(* ===================================================================== *)

Definition welcomeText : jsstring := js "Hello! How can I help you today?".

(** Mounting an instance: the initial [useState] values, then the effect
    that seeds the welcome message into the empty sequence (lines 51-62). *)
Definition mountVeeyaa (w : Page) : Page * nat :=
  (setInstances
     (<[nextInstance w :=
          mkConversation false [mkMessage 1 welcomeText bot (now w)] [] false]>
        (instances w))
     (S (nextInstance w)) w,
   nextInstance w).

(** Unmounting: the component registers no cleanup, so only the instance's
    state goes away. *)
Definition unmountVeeyaa (inst : nat) (w : Page) : Page :=
  setInstances (delete inst (instances w)) (nextInstance w) w.

(** [onChange] of the input: [setInputValue(e.target.value)]. *)
Definition updateDraft (inst : nat) (value : jsstring) (w : Page) : Page :=
  match instances w !! inst with
  | Some st =>
      setInstances
        (<[inst := mkConversation (isOpen st) (messages st) value (isTyping st)]>
           (instances w))
        (nextInstance w) w
  | None => w
  end.

(** [handleSendMessage] (lines 64-94) of the instance [inst], called on its
    latest render.  The three state updates are queued before [onMessage]
    is called; if it throws, the function ends there (its promise rejects)
    and the reply is not scheduled. *)
Definition handleSendMessage (onMessage : HostFn) (inst : nat) (w : Page) : Page :=
  match instances w !! inst with
  | None => w
  | Some st =>
      if negb (truthy (trim (inputValue st))) || isTyping st then w
      else
        let userMessage :=
          mkMessage (length (messages st) + 1) (trim (inputValue st)) user (now w) in
        let w1 := setInstances
                    (<[inst := mkConversation (isOpen st)
                                 (messages st ++ [userMessage]) [] true]>
                       (instances w))
                    (nextInstance w) w in
        let schedule w2 :=
          fst (setTimeout (BotReply inst (length (messages st) + 2)) 1000 w2) in
        match onMessage with
        | NotSupplied => schedule w1
        | Returns => schedule (emit [OnMessage (text userMessage)] w1)
        | Throws => emit [OnMessage (text userMessage)] w1
        end
  end.

(** [toggleChat] (lines 103-105). *)
Definition toggleChat (inst : nat) (w : Page) : Page :=
  match instances w !! inst with
  | Some st =>
      setInstances
        (<[inst := mkConversation (negb (isOpen st)) (messages st) (inputValue st)
                                  (isTyping st)]> (instances w))
        (nextInstance w) w
  | None => w
  end.

(** The effect of lines 37-41: on a hidden route an open panel is closed. *)
Definition closeWhenHidden (hideOnRoutes : list jsstring) (pathname : jsstring)
    (inst : nat) (w : Page) : Page :=
  match instances w !! inst with
  | Some st =>
      if shouldHide hideOnRoutes pathname && isOpen st then
        setInstances
          (<[inst := mkConversation false (messages st) (inputValue st) (isTyping st)]>
             (instances w))
          (nextInstance w) w
      else w
  | None => w
  end.

(* ===================================================================== *)
(** * What can happen on the page, and the predicates of the specification *)
(* ===================================================================== *)

(** ** The pages of a process *)

Fixpoint populate (o : TawkTarget) (a : TawkObject) : TawkObject :=
  match a with
  | Plain _ => Plain o
  | ProxyOf t => ProxyOf (populate o t)
  end.

(** The provider's script, when it runs, puts its entry points on the API
    object; whether they work is the provider's business. *)
Definition providerSets (o : TawkTarget) (w : Page) : Page :=
  setTawkAPI (populate o <$> Tawk_API w) w.

(** A provider whose entry points all work. *)
Definition providerReady (w : Page) : Page :=
  providerSets (mkTarget Works Works Works (Some ProviderStatus)) w.

(** The pending watchdog timers. *)
Definition isTitleCheck (tm : Timer) : bool :=
  match callback tm with
  | TitleCheck _ => true
  | _ => false
  end.

(** One thing happening on a page: a millisecond passing, the injected
    script loading or failing, an error or a rejection being reported, the
    provider's script setting its entry points or writing the title, a
    controller mounting or re-running its effect, the cleanup of an effect
    that armed a watchdog (it holds the identifier of that pending timer;
    the cleanup of an effect that armed none does nothing), an engine
    instance mounting or unmounting, the user typing, sending, opening or
    closing the panel, and the panel's effect running after a render. *)
Inductive pageStep : Page → Page → Prop :=
| step_tick w : pageStep w (tick w)
| step_onload s w : s ∈ headScripts w → pageStep w (scriptOnload s w)
| step_onerror s w : s ∈ headScripts w → pageStep w (scriptOnerror s w)
| step_report a w : pageStep w (reportError a w)
| step_rejection reason w : pageStep w (reportRejection reason w)
| step_provider o w : pageStep w (providerSets o w)
| step_title t w : pageStep w (setTitle t w)
| step_effect p pathname w : pageStep w (fst (effect p pathname w))
| step_cleanup tm w :
    tm ∈ timers w → isTitleCheck tm = true → pageStep w (cleanup (Some (tid tm)) w)
| step_mount w : pageStep w (fst (mountVeeyaa w))
| step_unmount inst w : pageStep w (unmountVeeyaa inst w)
| step_draft inst value w : pageStep w (updateDraft inst value w)
| step_send onMessage inst w : pageStep w (handleSendMessage onMessage inst w)
| step_toggle inst w : pageStep w (toggleChat inst w)
| step_close hideOnRoutes pathname inst w :
    pageStep w (closeWhenHidden hideOnRoutes pathname inst w).

(** The pages a process can be in: whatever the host's handler, the
    document title and the clock were when it started. *)
Definition reachable (w : Page) : Prop :=
  ∃ hostHandler documentTitle clock,
    rtc pageStep (freshPage hostHandler documentTitle clock) w.

(** Timer identifiers are distinct and below the next one handed out. *)
Definition idsOk (ts : list Timer) (n : positive) : Prop :=
  NoDup (tid <$> ts) ∧ Forall (λ tm, (tid tm < n)%positive) ts.

(** ** The load sequence and the containment layer *)

(** The load side effects recorded in the trace. *)
Definition isLoadEvent (e : event) : bool := isAppendScript e || isLoadStartWrite e.

Definition loadEffects (w : Page) : list event :=
  filter (λ e, isLoadEvent e = true) (trace w).

(** What the load sequence and the installation of the containment layer
    leave on the page. *)
Definition loadState (w : Page) :=
  (headScripts w, Tawk_LoadStart w, loadEffects w,
   onerror w, errorListeners w, rejectionListeners w, proxyDepth <$> Tawk_API w).

(** The deny-list of the synchronous handlers in the words of the
    specification: the message contains the provider name, the
    localization-library marker, the internal property-access marker or the
    phrase "is not a function", or the resource URL contains the provider's
    host marker. *)
Definition onDenyList (m u : jsstring) : Prop :=
  contains m (js "Tawk") ∨ contains m (js "i18next") ∨ contains m (js "$_Tawk") ∨
  contains m (js "is not a function") ∨ contains u (js "tawk").

(** The deny-list the specification gives the rejection listener: the four
    markers of the synchronous handlers, looked for in the rejection's
    message and stack. *)
Definition specRejectionMatch (reason : option Reason) : Prop :=
  ∃ r marker, reason = Some r ∧
    marker ∈ [js "Tawk"; js "i18next"; js "$_Tawk"; js "is not a function"] ∧
    ((∃ m, reason_message r = Some m ∧ contains m marker) ∨
     (∃ s, reason_stack r = Some s ∧ contains s marker)).

(** What the listener of the source tests. *)
Definition rejectionMatch (reason : option Reason) : Prop :=
  ∃ r, reason = Some r ∧
    ((∃ m, reason_message r = Some m ∧
           (contains m (js "Tawk") ∨ contains m (js "i18next") ∨ contains m (js "$_Tawk"))) ∨
     (∃ s, reason_stack r = Some s ∧ contains s (js "tawk"))).

(** A rejection whose message carries the phrase "is not a function". *)
Definition notAFunction : option Reason :=
  Some (mkReason (Some (js "widget.init is not a function")) None).

(** Nothing of the load sequence or of the containment layer has run on
    the page yet; [host] is the handler the host page put in
    [window.onerror]. *)
Definition pristine (host : Handler) (w : Page) : Prop :=
  Tawk_API w = None ∧ Tawk_LoadStart w = None ∧ headScripts w = [] ∧
  onerror w = host ∧ errorListeners w = [] ∧ rejectionListeners w = [].

(** The containment layer as it is on the page: the handler, the two
    listener lists and the number of proxies. *)
Definition layer (w : Page) :=
  (onerror w, errorListeners w, rejectionListeners w, proxyDepth <$> Tawk_API w).

(** ** The conversation engine *)

(** The pending timers that will reply to the instance [inst]. *)
Definition isBotReplyFor (inst : nat) (tm : Timer) : bool :=
  match callback tm with
  | BotReply i _ => bool_decide (i = inst)
  | _ => false
  end.

Definition pendingReplies (inst : nat) (w : Page) : list Timer :=
  filter (λ tm, isBotReplyFor inst tm = true) (timers w).

(** The engine's invariant: a mounted instance that is typing has at most
    one reply pending, a timeout still to come (none when the sink threw);
    one that is not typing has none; an instance number not handed out yet
    has none either. *)
Definition engineInv (w : Page) : Prop :=
  ∀ inst,
    match instances w !! inst with
    | Some st =>
        (inst < nextInstance w)%nat ∧
        if isTyping st
        then pendingReplies inst w = [] ∨
             ∃ T, pendingReplies inst w = [T] ∧ interval T = None ∧ now w < due T
        else pendingReplies inst w = []
    | None => (nextInstance w ≤ inst)%nat → pendingReplies inst w = []
    end.

(** The state of an instance after the simulated reply arrived at [t]. *)
Definition replied (botId : nat) (t : N) (st : ConversationState) : ConversationState :=
  mkConversation (isOpen st) (messages st ++ [mkMessage botId botText bot t])
                 (inputValue st) false.

(** An engine instance on a page of its own, with its panel opened and
    "Hello" typed; the page after it sent the draft to a sink that returns,
    and after the instance was unmounted 400 ms later; and the page after
    it sent the draft to a sink that throws. *)
Definition draftPage : Page :=
  updateDraft 0 (js "Hello")
    (toggleChat 0 (fst (mountVeeyaa (freshPage NoHandler (js "Home") 0)))).

Definition sentPage : Page := handleSendMessage Returns 0 draftPage.

Definition tornDown : Page := unmountVeeyaa 0 (advance 400 sentPage).

Definition sinkThrewPage : Page := handleSendMessage Throws 0 draftPage.

(** ** The title watchdog *)

(** No watchdog is in the queue. *)
Definition noWatchdog (w : Page) : Prop :=
  Forall (λ tm, isTitleCheck tm = false) (timers w).

(** The writes to [document.title] made so far. *)
Definition titleWrites (w : Page) : nat := count isTitleWrite (trace w).

(** Every watchdog timer of the queue is the one with identifier [id] and
    baseline [b]. *)
Definition onlyWatchdog (id : positive) (b : jsstring) (w : Page) : Prop :=
  Forall (λ tm, isTitleCheck tm = true → tid tm = id ∧ callback tm = TitleCheck b)
         (timers w).

(** The watchdog [id] with baseline [b] is in the queue and comes due
    within its 500 ms period. *)
Definition armed (id : positive) (b : jsstring) (w : Page) : Prop :=
  ∃ tm, tm ∈ timers w ∧ tid tm = id ∧ callback tm = TitleCheck b ∧
        interval tm = Some 500 ∧ now w < due tm ≤ now w + 500.

(* ===================================================================== *)
(** * Further parts of the components *)
(* ===================================================================== *)

(** ** Reconciliation *)




Definition isApiCall (e : event) : bool :=
  match e with
  | ApiHideWidget | ApiShowWidget | ApiSetAttributes _ _ => true
  | _ => false
  end.

(** The calls of the widget API made so far. *)
Definition apiCalls (w : Page) : list event :=
  filter (λ e, isApiCall e = true) (trace w).

(** The calls of the widget API made so far, with the warnings about the
    calls that threw. *)
Definition isWidgetEvent (e : event) : bool :=
  match e with
  | ApiHideWidget | ApiShowWidget | ApiSetAttributes _ _ | ConsoleWarnError _ _ => true
  | _ => false
  end.

Definition widgetLog (w : Page) : list event :=
  filter (λ e, isWidgetEvent e = true) (trace w).



(** The provider's script has not filled the API object: none of the
    three entry points is present. *)
Definition unpopulated (w : Page) : Prop :=
  match Tawk_API w with
  | Some api =>
      hideWidget (targetOf api) = Missing ∧ showWidget (targetOf api) = Missing ∧
      setAttributes (targetOf api) = Missing
  | None => True
  end.

(** The pending watchdog timers. *)
Definition watchdogs (w : Page) : list Timer :=
  filter (λ tm, isTitleCheck tm = true) (timers w).

(** [n] wrappers of [setupErrorHandling] around [h]. *)
Fixpoint wrapped (n : nat) (h : Handler) : Handler :=
  match n with
  | O => h
  | S n' => TawkHandler (wrapped n' h)
  end.

(** ** The proxy's [get] trap *)

(** What a property holds: a value of the provider's, or the
    [function() {}] the trap hands out. *)
Inductive PropValue (V : Type) :=
| Held (v : V)
| NoopFunction.
Global Arguments Held {V} v.
Global Arguments NoopFunction {V}.

(** Reading a property: the value, or a thrown error object, of which the
    trap looks at [e.message] (absent when the object has none). *)
Inductive Read (V : Type) :=
| ReadValue (v : PropValue V)
| ReadThrows (message : option jsstring).
Global Arguments ReadValue {V} v.
Global Arguments ReadThrows {V} message.

(** The test of the trap's [catch] (line 204). *)
Definition trapMatches (message : option jsstring) : bool :=
  match message with
  | Some m => truthy m && (includes m (js "i18next") || includes m (js "$_Tawk"))
  | None => false
  end.

(** The [get] trap (lines 200-210) around a read of [target[prop]]. *)
Definition proxyGet {V} (prop : jsstring) (r : Read V) : Read V * list event :=
  match r with
  | ReadValue v => (ReadValue v, [])
  | ReadThrows message =>
      if trapMatches message then
        (ReadValue NoopFunction,
         [ConsoleWarn (js "TawkChatbot: Tawk.to API error prevented:") (Some prop)])
      else (ReadThrows message, [])
  end.

(** Reading [prop] of [window.Tawk_API] when the read of the wrapped
    object gives [r]: each proxy layer's trap reads its own target. *)
Fixpoint getThrough {V} (a : TawkObject) (prop : jsstring) (r : Read V)
    : Read V * list event :=
  match a with
  | Plain _ => (r, [])
  | ProxyOf t =>
      let '(inner, warned) := getThrough t prop r in
      let '(outer, warned') := proxyGet prop inner in
      (outer, warned ++ warned')
  end.

(** The trap's deny-list in words: the thrown error has a message that
    contains the localization-library marker or the internal
    property-access marker. *)
Definition onTrapList (message : option jsstring) : Prop :=
  ∃ m, message = Some m ∧ (contains m (js "i18next") ∨ contains m (js "$_Tawk")).

(** ** The dispatcher ([Chatbot.jsx]) *)

Module Dispatcher.

(** The props of [Chatbot]; [None] is a prop that was not passed
    ([undefined]), for which the destructuring default applies. *)
Record ChatbotProps := mkChatbotProps {
  provider : option jsstring;
  tawkPropertyId : option jsstring;
  tawkWidgetId : option jsstring;
  hideOnRoutes : option (list jsstring);
  position : option jsstring;
  primaryColor : option jsstring;
  backgroundColor : option jsstring;
  apiUrl : option jsstring;
  onMessage : HostFn;
  enableErrorHandling : option bool;
  enableTitleProtection : option bool;
  onLoad : HostFn;
  onError : HostFn
}.

(** The props [Chatbot] hands to [VeeyaaChatbot]. *)
Record VeeyaaProps := mkVeeyaaProps {
  veeyaa_hideOnRoutes : list jsstring;
  veeyaa_position : jsstring;
  veeyaa_primaryColor : jsstring;
  veeyaa_backgroundColor : jsstring;
  veeyaa_apiUrl : option jsstring;
  veeyaa_onMessage : HostFn
}.

(** What [Chatbot] returns. *)
Inductive Element :=
| TawkElement (p : Props)
| VeeyaaElement (p : VeeyaaProps)
| Null.

(** [s] between double quotes. *)
Definition quoted (s : jsstring) : jsstring := 0x22 :: s ++ [0x22].

Definition truthyProp (o : option jsstring) : bool :=
  match o with
  | Some s => truthy s
  | None => false
  end.

(** [Chatbot] (lines 25-74): the element returned and what it logged. *)
Definition Chatbot (cp : ChatbotProps) : Element * list event :=
  let provider := default (js "tawk") (provider cp) in
  let hideOnRoutes := default [js "/customer"] (hideOnRoutes cp) in
  if bool_decide (provider = js "tawk") then
    if negb (truthyProp (tawkPropertyId cp)) || negb (truthyProp (tawkWidgetId cp)) then
      (Null,
       [ConsoleWarn
          (js "Chatbot: tawkPropertyId and tawkWidgetId are required when provider is " ++
           quoted (js "tawk"))
          None])
    else
      (TawkElement
         (mkProps (default [] (tawkPropertyId cp)) (default [] (tawkWidgetId cp))
                  hideOnRoutes
                  (default true (enableErrorHandling cp))
                  (default true (enableTitleProtection cp))
                  (onLoad cp) (onError cp)),
       [])
  else if bool_decide (provider = js "veeyaa") then
    (VeeyaaElement
       (mkVeeyaaProps hideOnRoutes
                      (default (js "bottom-right") (position cp))
                      (default (js "#677a58") (primaryColor cp))
                      (default (js "#ffffff") (backgroundColor cp))
                      (apiUrl cp) (onMessage cp)),
     [])
  else
    (Null,
     [ConsoleWarn
        (js "Chatbot: Unknown provider " ++ quoted provider ++
         js ". Supported providers: " ++ quoted (js "tawk") ++ js ", " ++
         quoted (js "veeyaa"))
        None]).

End Dispatcher.

(** ** The panel, the keyboard and the view of [VeeyaaChatbot] *)

(** A [keypress] event as [handleKeyPress] reads it. *)
Record KeyEvent := mkKeyEvent {
  key : jsstring;
  shiftKey : bool
}.

(** [handleKeyPress] (lines 96-101): the page, and whether
    [e.preventDefault()] was called. *)
Definition handleKeyPress (onMessage : HostFn) (inst : nat) (e : KeyEvent) (w : Page)
    : Page * bool :=
  if bool_decide (key e = js "Enter") && negb (shiftKey e)
  then (handleSendMessage onMessage inst w, true)
  else (w, false).

(** What the chat window shows (lines 133-208). *)
Record WindowView := mkWindowView {
  bubbles : list (jsstring * Sender);
  typingIndicator : bool;
  inputText : jsstring;
  inputDisabled : bool;
  sendDisabled : bool
}.

(** What the component renders: nothing on a hidden route (lines 107-109),
    else the toggle button and, when the panel is open, the window. *)
Definition render (hideOnRoutes : list jsstring) (pathname : jsstring)
    (st : ConversationState) : option (option WindowView) :=
  if shouldHide hideOnRoutes pathname then None
  else
    Some (if isOpen st then
            Some (mkWindowView ((λ m, (text m, sender m)) <$> messages st)
                               (isTyping st) (inputValue st) (isTyping st)
                               (negb (truthy (trim (inputValue st))) || isTyping st))
          else None).

(** ** The transcript *)

(** A text [trim] leaves alone, and that is not empty. *)
Definition trimmedText (s : jsstring) : Prop := s ≠ [] ∧ trim s = s.

(** What the message at index [i] of a transcript looks like: its [id] is
    its position counted from 1; at the even indices the bot speaks, first
    the welcome and then the fixed reply; at the odd ones the user, with a
    trimmed text that is not empty. *)
Definition messageOk (i : nat) (m : Message) : Prop :=
  msg_id m = S i ∧
  if Nat.even i
  then sender m = bot ∧ text m = (if i is O then welcomeText else botText)
  else sender m = user ∧ trimmedText (text m).

(** The shape of a transcript: it is not empty, every message is as
    [messageOk] says, and a reply is waited for exactly when the user spoke
    last. *)
Definition transcriptOk (st : ConversationState) : Prop :=
  messages st ≠ [] ∧
  (∀ i m, messages st !! i = Some m → messageOk i m) ∧
  isTyping st = Nat.even (length (messages st)).

(** The reply a typing instance waits for carries the next position. *)
Definition replyIdOk (inst : nat) (st : ConversationState) (w : Page) : Prop :=
  ∀ T b, T ∈ pendingReplies inst w → callback T = BotReply inst b →
         b = S (length (messages st)).

Definition transcriptInv (w : Page) : Prop :=
  ∀ inst st, instances w !! inst = Some st → transcriptOk st ∧ replyIdOk inst st w.

(** The transcripts of [w'] continue those of [w]: an instance of [w]
    still mounted in [w'] has its messages of [w] as the first ones, and an
    instance of [w'] that [w] did not have is new. *)
Definition continues (w w' : Page) : Prop :=
  (nextInstance w ≤ nextInstance w')%nat ∧
  ∀ inst st', instances w' !! inst = Some st' →
    match instances w !! inst with
    | Some st => messages st `prefix_of` messages st'
    | None => (nextInstance w ≤ inst)%nat
    end.

(** A step after which the provider's script has still not filled the API
    object. *)
Definition beforeProvider (w w' : Page) : Prop := pageStep w w' ∧ unpopulated w'.

(* ===================================================================== *)
(** * Facts about the string built-ins *)
(* ===================================================================== *)

Example startsWith_under_prefix :
  startsWith (js "/customer/42") (js "/customer") = true.
Proof. reflexivity. Qed.

Example startsWith_case_sensitive :
  startsWith (js "/Customer/42") (js "/customer") = false.
Proof. reflexivity. Qed.

Example trim_both_ends : trim (js "  hi there  ") = js "hi there".
Proof. reflexivity. Qed.

Example count_in_title :
  matchesCount (js "Home (2)") = true ∧ matchesCount (js "Home ()") = false ∧
  matchesCount (js "(1a) (23)") = true ∧ matchesCount (js "(2") = false.
Proof. by vm_compute. Qed.

Example unread_case_sensitive :
  unreadShape (js "1 new message") = true ∧ unreadShape (js "New message") = false.
Proof. by vm_compute. Qed.

Lemma startsWith_prefix (s search : jsstring) :
  startsWith s search = true ↔ search `prefix_of` s.
Proof.
  unfold startsWith. case_bool_decide as Hlen.
  - split; [done|]. intros [k ->]. rewrite length_app in Hlen. lia.
  - rewrite bool_decide_eq_true. split.
    + intros <-. apply prefix_take.
    + intros [k ->]. by rewrite take_app_length.
Qed.

Lemma startsWith_nil (s : jsstring) : startsWith s [] = true.
Proof. apply startsWith_prefix, prefix_nil. Qed.

Lemma includes_contains (s m : jsstring) :
  includes s m = true ↔ contains s m.
Proof.
  unfold contains. induction s as [|c s IH]; simpl.
  - rewrite orb_false_r, startsWith_prefix. split.
    + intros [k Hk]. exists [], k. done.
    + intros (a & b & Hab). symmetry in Hab.
      apply app_eq_nil in Hab as [-> Hab]. apply app_eq_nil in Hab as [-> ->].
      done.
  - rewrite orb_true_iff, startsWith_prefix, IH. split.
    + intros [[k Hk] | (a & b & ->)].
      * exists [], k. done.
      * exists (c :: a), b. done.
    + intros (a & b & Hab). destruct a as [|c' a].
      * left. exists b. done.
      * right. simpl in Hab. injection Hab as -> ->. eauto.
Qed.

Lemma contains_truthy (s m : jsstring) :
  m ≠ [] → contains s m → truthy s = true.
Proof.
  intros Hm (a & b & ->). destruct a; [|done]. destruct m; done.
Qed.

Lemma skipDigits_split (s : jsstring) :
  ∃ ds, s = ds ++ skipDigits s ∧ Forall (λ c, isDigit c = true) ds.
Proof.
  induction s as [|c s (ds & Hs & Hds)]; simpl.
  - by exists [].
  - destruct (isDigit c) eqn:E.
    + exists (c :: ds). split; [simpl; congruence | by constructor].
    + by exists [].
Qed.

Lemma skipDigits_app (ds : jsstring) (c : code_unit) (post : jsstring) :
  Forall (λ c, isDigit c = true) ds → isDigit c = false →
  skipDigits (ds ++ c :: post) = c :: post.
Proof.
  intros Hds Hc. induction Hds as [|d ds Hd _ IH]; simpl.
  - by rewrite Hc.
  - by rewrite Hd.
Qed.

Lemma countAt_spec (s : jsstring) :
  countAt s = true ↔
  ∃ ds post, s = 0x28 :: ds ++ 0x29 :: post ∧ ds ≠ [] ∧
             Forall (λ c, isDigit c = true) ds.
Proof.
  split.
  - destruct s as [|open [|d rest]]; simpl; try done.
    intros [[Ho Hd]%andb_true_iff Hc]%andb_true_iff.
    apply N.eqb_eq in Ho as ->.
    destruct (skipDigits_split rest) as (ds & Hrest & Hds).
    destruct (skipDigits rest) as [|close post]; [done|].
    apply N.eqb_eq in Hc as ->.
    exists (d :: ds), post. split; [|split; [done | by constructor]].
    simpl. by rewrite Hrest at 1.
  - intros (ds & post & -> & Hne & Hds).
    destruct Hds as [|d ds Hd Hds]; [done|]. simpl.
    rewrite Hd, (skipDigits_app ds 0x29 post Hds) by done. done.
Qed.

Lemma matchesCount_spec (s : jsstring) : matchesCount s = true ↔ hasCount s.
Proof.
  unfold hasCount. induction s as [|c s IH].
  - split; [done|]. intros (pre & ds & post & Hs & _). by destruct pre.
  - change (matchesCount (c :: s)) with (countAt (c :: s) || matchesCount s).
    rewrite orb_true_iff, countAt_spec, IH. split.
    + intros [(ds & post & Hs & Hne & Hds) | (pre & ds & post & -> & Hne & Hds)].
      * exists [], ds, post. done.
      * exists (c :: pre), ds, post. done.
    + intros (pre & ds & post & Hs & Hne & Hds). destruct pre as [|c' pre].
      * left. exists ds, post. done.
      * right. simpl in Hs. injection Hs as -> ->. eauto 10.
Qed.

Lemma shouldHide_spec (R : list jsstring) (P : jsstring) :
  shouldHide R P = true ↔ ∃ r, r ∈ R ∧ r `prefix_of` P.
Proof.
  unfold shouldHide. rewrite existsb_exists. split.
  - intros (r & Hin & Hr). exists r. split.
    + by apply list_elem_of_In.
    + by apply startsWith_prefix.
  - intros (r & Hin & Hr). exists r. split.
    + by apply list_elem_of_In.
    + by apply startsWith_prefix.
Qed.

(** C1. The route visibility predicate returns hidden exactly when some
    prefix of the route set is a literal prefix of the current path; an
    empty route set never hides, and the empty path matches no non-empty
    prefix (it is hidden only through an empty prefix). *)
Theorem C1_shouldHide_iff_prefix :
  (∀ (P : jsstring) (R : list jsstring),
      shouldHide R P = true ↔ ∃ r, r ∈ R ∧ r `prefix_of` P) ∧
  (∀ P : jsstring, shouldHide [] P = false) ∧
  (∀ r : jsstring, r ≠ [] → startsWith [] r = false) ∧
  (∀ R : list jsstring, shouldHide R [] = true ↔ [] ∈ R).
Proof.
  split; [|split; [|split]].
  - intros P R. apply shouldHide_spec.
  - done.
  - intros [|c r] Hr; done.
  - intros R. rewrite shouldHide_spec. split.
    + intros (r & Hin & Hr). by apply prefix_nil_inv in Hr as ->.
    + intros Hin. exists []. split; [done | apply prefix_nil].
Qed.

(** C10. A route set that contains the empty string hides every path, the
    empty one included. *)
Theorem C10_empty_prefix_hides_all (R : list jsstring) (P : jsstring) :
  [] ∈ R → shouldHide R P = true.
Proof.
  intros Hin. apply shouldHide_spec. exists []. split; [done | apply prefix_nil].
Qed.

Lemma C10_empty_prefix_hides_all_witness :
  shouldHide [js "/customer"; js ""] (js "/orders") = true ∧
  shouldHide [js ""] (js "") = true.
Proof.
  split.
  - apply (C10_empty_prefix_hides_all [js "/customer"; js ""] (js "/orders")).
    vm_compute. apply list_elem_of_further, list_elem_of_here.
  - apply (C10_empty_prefix_hides_all [js ""] (js "")).
    vm_compute. apply list_elem_of_here.
Defined.

(* ===================================================================== *)
(** * Error containment *)
(* ===================================================================== *)

Lemma truthy_of_includes (s m : jsstring) :
  m ≠ [] → includes s m = true → truthy s = true.
Proof. intros Hm H. eapply contains_truthy; [done|]. by apply includes_contains. Qed.

Lemma guarded_includes (s m : jsstring) :
  m ≠ [] → truthy s && includes s m = includes s m.
Proof.
  intros Hm. destruct (includes s m) eqn:E.
  - by rewrite (truthy_of_includes s m).
  - apply andb_false_r.
Qed.

Lemma deniedError_spec (m u : jsstring) :
  deniedError m u = true ↔ onDenyList m u.
Proof.
  unfold deniedError, onDenyList. rewrite <- !includes_contains.
  rewrite (guarded_includes u (js "tawk")) by done.
  set (X := includes m (js "Tawk") || includes m (js "i18next") ||
            includes m (js "$_Tawk") || includes m (js "is not a function")).
  assert (truthy m && X = X) as ->.
  { destruct X eqn:E; [|apply andb_false_r]. rewrite andb_true_r.
    subst X. repeat (apply orb_true_iff in E as [E|E]);
      eapply truthy_of_includes; try exact E; done. }
  subst X. rewrite !orb_true_iff. tauto.
Qed.

(** C3. An error on the deny-list is reported as handled by the wrapper of
    [window.onerror] (and default-prevented by the [error] listener); any
    other error gets from the wrapper exactly what the original handler
    gives on the same arguments, so the wrapper itself never suppresses it:
    with no original handler, or one that does not claim the error, default
    handling goes on; the listener leaves such an event alone. *)
Theorem C3_containment_selective (original : Handler) (a : ErrorArgs) :
  (onDenyList (msg a) (url a) →
     fst (callHandler (TawkHandler original) a) = true ∧
     PreventDefault ∈ errorListener (mkErrorEvent (msg a) (url a))) ∧
  (¬ onDenyList (msg a) (url a) →
     callHandler (TawkHandler original) a = callHandler original a ∧
     (∀ returns, original = HostHandler returns →
        callHandler (TawkHandler original) a = (returns a, [OriginalHandlerCalled a])) ∧
     (original = NoHandler → fst (callHandler (TawkHandler original) a) = false) ∧
     errorListener (mkErrorEvent (msg a) (url a)) = []).
Proof.
  split.
  - intros Hd. apply deniedError_spec in Hd.
    unfold errorListener. simpl. rewrite Hd. split; [done | apply list_elem_of_here].
  - intros Hn.
    assert (deniedError (msg a) (url a) = false) as Hd.
    { destruct (deniedError (msg a) (url a)) eqn:E; [|done].
      by apply deniedError_spec in E. }
    unfold errorListener. simpl. rewrite Hd.
    split; [done|]. split; [by intros returns ->|]. split; [by intros ->|done].
Qed.

Lemma deniedRejection_spec (reason : option Reason) :
  deniedRejection reason = true ↔ rejectionMatch reason.
Proof.
  unfold deniedRejection, rejectionMatch. destruct reason as [[om os]|]; simpl.
  - rewrite orb_true_iff. split.
    + intros [Hm | Hs]; eexists; (split; [done|]); simpl.
      * left. destruct om as [m|]; [|done]. exists m. split; [done|].
        apply andb_true_iff in Hm as [_ Hm].
        rewrite <- !includes_contains.
        repeat (apply orb_true_iff in Hm as [Hm|Hm]); tauto.
      * right. destruct os as [s|]; [|done]. exists s. split; [done|].
        apply andb_true_iff in Hs as [_ Hs]. by apply includes_contains.
    + intros (r & [= <-] & [(m & Hm & Hc) | (s & Hs & Hc)]); simpl in *.
      * left. rewrite Hm. rewrite <- !includes_contains in Hc.
        assert (truthy m = true) as ->.
        { destruct Hc as [H|[H|H]];
            eapply truthy_of_includes; try exact H; done. }
        simpl. destruct Hc as [-> | [-> | ->]]; rewrite ?orb_true_r; done.
      * right. rewrite Hs. apply includes_contains in Hc.
        rewrite guarded_includes by done. done.
  - split; [done|]. intros (r & ? & _). done.
Qed.

(** C8 (as the code has it). The rejection listener marks a rejection
    handled exactly when its reason is present and either the reason's
    message contains the provider name, the localization-library marker or
    the internal property-access marker, or its stack contains the
    provider's host marker. *)
Theorem C8_rejection_listener (reason : option Reason) :
  PreventDefault ∈ rejectionListener reason ↔ rejectionMatch reason.
Proof.
  rewrite <- deniedRejection_spec. unfold rejectionListener.
  destruct (deniedRejection reason).
  - split; [done | intros _; apply list_elem_of_here].
  - split; [intros H; by apply elem_of_nil in H | done].
Qed.

(** C8 (as stated) fails on a rejection whose message carries the phrase
    "is not a function": the synchronous handlers suppress an error with
    this message, the rejection listener does not mark the rejection
    handled. *)
Lemma C8_same_deny_list_counterexample :
  specRejectionMatch notAFunction ∧
  deniedError (js "widget.init is not a function") [] = true ∧
  ¬ (PreventDefault ∈ rejectionListener notAFunction ↔ specRejectionMatch notAFunction).
Proof.
  assert (specRejectionMatch notAFunction) as Hc.
  { eexists _, (js "is not a function"). split; [done|]. split.
    - do 3 apply list_elem_of_further. apply list_elem_of_here.
    - left. eexists. split; [done|]. apply includes_contains. by vm_compute. }
  split; [done|]. split; [by vm_compute|].
  intros [_ H]. specialize (H Hc). vm_compute in H. by apply elem_of_nil in H.
Qed.

(* ===================================================================== *)
(** * The send guard *)
(* ===================================================================== *)

Lemma trimStart_white (s : jsstring) :
  Forall (λ c, isWhiteSpace c = true) s → trimStart s = [].
Proof. induction 1 as [|c s Hc _ IH]; simpl; [done|]. by rewrite Hc. Qed.

Lemma trim_white (s : jsstring) :
  Forall (λ c, isWhiteSpace c = true) s → trim s = [].
Proof. intros H. unfold trim. by rewrite (trimStart_white s H). Qed.

Lemma trimStart_nil (s : jsstring) :
  trimStart s = [] → Forall (λ c, isWhiteSpace c = true) s.
Proof.
  induction s as [|c s IH]; simpl; [done|].
  destruct (isWhiteSpace c) eqn:E; [|done]. intros H. constructor; [done | by apply IH].
Qed.

Lemma trimStart_head (s : jsstring) c r :
  trimStart s = c :: r → isWhiteSpace c = false.
Proof.
  induction s as [|d s IH]; simpl; [done|].
  destruct (isWhiteSpace d) eqn:E; [done|]. by intros [= <- _].
Qed.

(** A draft trims to the empty string exactly when it is empty or all
    white space. *)
Lemma trim_nil_iff (s : jsstring) :
  trim s = [] ↔ Forall (λ c, isWhiteSpace c = true) s.
Proof.
  split; [|apply trim_white].
  unfold trim. intros H. apply (f_equal reverse) in H.
  rewrite reverse_involutive, reverse_nil in H.
  apply trimStart_nil in H. rewrite Forall_reverse in H.
  destruct (trimStart s) as [|c r] eqn:E; [by apply trimStart_nil|].
  apply Forall_cons in H as [Hc _]. by rewrite (trimStart_head s c r E) in Hc.
Qed.

(** C4. [send()] on a draft that is empty or all white space, or while
    [isTyping] is true, leaves the whole page as it was: the messages, the
    draft and [isTyping] of the instance, the timer queue, and the trace
    (the outbound sink is not called). *)
Theorem C4_send_guard (onMessage : HostFn) (inst : nat) (w : Page) (st : ConversationState) :
  instances w !! inst = Some st →
  Forall (λ c, isWhiteSpace c = true) (inputValue st) ∨ isTyping st = true →
  handleSendMessage onMessage inst w = w.
Proof.
  intros Hst Hguard. unfold handleSendMessage. rewrite Hst.
  destruct Hguard as [Hws | Hty].
  - by rewrite (trim_white _ Hws).
  - rewrite Hty. by rewrite orb_true_r.
Qed.

Lemma C4_send_guard_witness :
  let w := updateDraft 0 (js "   ") (fst (mountVeeyaa (freshPage NoHandler (js "Home") 0))) in
  handleSendMessage Returns 0 w = w.
Proof.
  intros w.
  apply (C4_send_guard Returns 0%nat w
           (mkConversation false [mkMessage 1 welcomeText bot 0] (js "   ") false)).
  - by vm_compute.
  - left. vm_compute. repeat constructor.
Defined.

(* ===================================================================== *)
(** * The load sequence runs once *)
(* ===================================================================== *)

Lemma filter_none {A} (f : A → bool) (l : list A) :
  Forall (λ x, f x = false) l → filter (λ x, f x = true) l = [].
Proof.
  induction 1 as [|x l Hx _ IH]; [done|].
  rewrite filter_cons_False; [done | congruence].
Qed.

Lemma proxyDepth_assignStatus h a : proxyDepth (assignStatus h a) = proxyDepth a.
Proof. induction a; simpl; congruence. Qed.

Lemma proxyDepth_populate o a : proxyDepth (populate o a) = proxyDepth a.
Proof. induction a; simpl; congruence. Qed.

Lemma loadState_emit es w :
  Forall (λ e, isLoadEvent e = false) es → loadState (emit es w) = loadState w.
Proof.
  intros H. unfold loadState, loadEffects. simpl.
  by rewrite filter_app, (filter_none _ _ H), app_nil_r.
Qed.

Lemma loadNeeded_loadState w w' :
  loadState w' = loadState w → loadNeeded w' = loadNeeded w.
Proof.
  unfold loadState, loadNeeded. intros [= _ -> _ _ _ _ Hapi].
  by destruct (Tawk_API w), (Tawk_API w').
Qed.

(** The callbacks, and with them the passing of time, leave the load state
    alone. *)
Lemma loadState_setStatus h api w :
  Tawk_API w = Some api →
  loadState (setTawkAPI (Some (assignStatus h api)) w) = loadState w.
Proof.
  intros Hapi. unfold loadState, loadEffects. simpl.
  by rewrite Hapi, proxyDepth_assignStatus.
Qed.

Lemma loadState_hideChatbot tp w : loadState (hideChatbot tp w) = loadState w.
Proof.
  unfold hideChatbot. destruct (Tawk_API w) as [api|] eqn:Hapi; [|done].
  destruct (hideWidget _), (setAttributes _), (_ && _); cbn;
    rewrite ?loadState_setStatus by done;
    rewrite ?loadState_emit; done || by repeat constructor.
Qed.

Lemma loadState_showChatbot w : loadState (showChatbot w) = loadState w.
Proof.
  unfold showChatbot. destruct (Tawk_API w) as [api|]; [|done].
  destruct (showWidget _), (setAttributes _); cbn;
    rewrite ?loadState_emit; done || by repeat constructor.
Qed.

Lemma loadState_runCallback cb w : loadState (runCallback cb w) = loadState w.
Proof.
  destruct cb as [hide tp | orig | inst botId]; simpl.
  - destruct hide; [apply loadState_hideChatbot | apply loadState_showChatbot].
  - unfold titleCheck. case_bool_decide; [|done]. destruct (unreadShape _); [|done].
    rewrite loadState_emit; [done | by repeat constructor].
  - unfold botReply. by destruct (instances w !! inst).
Qed.

Lemma loadState_fire w tm : loadState (fire w tm) = loadState w.
Proof.
  unfold fire. rewrite loadState_runCallback.
  apply loadState_emit. by repeat constructor.
Qed.

Lemma loadState_foldl_fire l w : loadState (foldl fire w l) = loadState w.
Proof.
  revert w. induction l as [|tm l IH]; intros w; simpl; [done|].
  by rewrite IH, loadState_fire.
Qed.

Lemma loadState_tick w : loadState (tick w) = loadState w.
Proof. unfold tick. by rewrite loadState_foldl_fire. Qed.

Lemma loadState_advance n w : loadState (advance n w) = loadState w.
Proof.
  revert w. induction n as [|n IH]; intros w; simpl; [done|].
  by rewrite IH, loadState_tick.
Qed.

(** After a run of the effect both markers are set. *)
Lemma effect_loaded p pathname w : loadNeeded (fst (effect p pathname w)) = false.
Proof.
  unfold effect.
  set (w1 := if loadNeeded w then _ else _).
  assert (loadNeeded w1 = false) as H1.
  { subst w1. destruct (loadNeeded w) eqn:E; [|done].
    unfold loadNeeded. simpl. done. }
  destruct (_ && _); [|done].
  by destruct w1.
Qed.

(** A run of the effect on a page where the markers are set does nothing of
    the load sequence: it only sets timers. *)
Lemma effect_when_loaded p pathname w :
  loadNeeded w = false →
  loadState (fst (effect p pathname w)) = loadState w ∧
  trace (fst (effect p pathname w)) = trace w.
Proof.
  intros H. unfold effect. rewrite H. by destruct (_ && _).
Qed.

Lemma callHandler_events h a :
  Forall (λ e, isReportEvent e = true) (snd (callHandler h a)).
Proof.
  induction h as [|f|h IH]; simpl; [constructor | by repeat constructor |].
  destruct (deniedError _ _); [by repeat constructor | done].
Qed.

Lemma runErrorListeners_events e w :
  Forall (λ e, isReportEvent e = true) (runErrorListeners e w).
Proof.
  unfold runErrorListeners. apply Forall_concat, Forall_fmap, Forall_true.
  intros ?. unfold compose, errorListener.
  destruct (deniedError _ _); by repeat constructor.
Qed.

(** A report only adds to the trace. *)
Lemma reportError_shape a w :
  ∃ es, reportError a w = emit es w ∧ Forall (λ e, isReportEvent e = true) es.
Proof.
  unfold reportError. destruct (existsb _ _); eexists; (split; [done|]).
  - apply runErrorListeners_events.
  - apply Forall_app. split; [apply runErrorListeners_events | apply callHandler_events].
Qed.

(** Only a run of the effect touches the load state. *)
Lemma pageStep_loadState_or_effect w w' :
  pageStep w w' →
  loadState w' = loadState w ∨ ∃ p pathname, w' = fst (effect p pathname w).
Proof.
  intros Hstep.
  destruct Hstep as [w|s w|s w|a w|reason w|o w|t w|p pathname w|tm w| | | | | |];
    [left|left|left|left|left|left|left|right; eauto|left|left|left|left|left|left|left].
  - apply loadState_tick.
  - unfold scriptOnload. destruct (script_onLoad s); [done| |].
    + by rewrite <- (loadState_emit [OnLoad] w) by by repeat constructor.
    + apply loadState_emit. by repeat constructor.
  - unfold scriptOnerror. destruct (supplied (script_onError s)).
    + rewrite !loadState_emit; [done | by repeat constructor ..].
    + rewrite !loadState_emit; [done | by repeat constructor ..].
  - destruct (reportError_shape a w) as (es & -> & Hes). apply loadState_emit.
    eapply Forall_impl; [exact Hes|]. by intros [].
  - unfold reportRejection. apply loadState_emit.
    unfold runRejectionListeners. apply Forall_concat, Forall_fmap, Forall_true.
    intros ?. unfold compose, rejectionListener.
    destruct (deniedRejection _); by repeat constructor.
  - unfold loadState, loadEffects, providerSets. simpl.
    destruct (Tawk_API w); simpl; [|done]. by rewrite proxyDepth_populate.
  - done.
  - done.
  - done.
  - done.
  - unfold updateDraft. by destruct (instances w !! inst).
  - unfold handleSendMessage. destruct (instances w !! inst); [|done].
    destruct (_ || _); [done|].
    destruct onMessage; [done | |];
      (unfold loadState, loadEffects; simpl; rewrite filter_app;
       by rewrite (filter_none isLoadEvent [_]), app_nil_r by by repeat constructor).
  - unfold toggleChat. by destruct (instances w !! inst).
  - unfold closeWhenHidden. destruct (instances w !! inst); [|done].
    by destruct (_ && _).
Qed.

Lemma pageStep_loadState w w' :
  loadNeeded w = false → pageStep w w' → loadState w' = loadState w.
Proof.
  intros Hl [H | (p & pathname & ->)]%pageStep_loadState_or_effect; [done|].
  by apply effect_when_loaded.
Qed.

Lemma pageSteps_loadState w w' :
  loadNeeded w = false → rtc pageStep w w' →
  loadState w' = loadState w ∧ loadNeeded w' = false.
Proof.
  intros Hl Hsteps. induction Hsteps as [w | w w1 w2 Hstep _ IH]; [done|].
  pose proof (pageStep_loadState w w1 Hl Hstep) as H1.
  pose proof (loadNeeded_loadState _ _ H1) as Hl1. rewrite Hl in Hl1.
  destruct (IH Hl1) as [H2 Hl2]. split; [congruence | done].
Qed.

(** C2. On a page where the load markers are not both set, a run of the
    load sequence followed, after anything that can happen on the page, by
    a second run (any identifiers, any route, the same or another mount)
    injects exactly one script and writes the load-start marker exactly
    once; the second run leaves the trace and the load state as it found
    them. *)
Theorem C2_load_sequence_once (p1 p2 : Props) (path1 path2 : jsstring) (w w' : Page) :
  loadNeeded w = true →
  rtc pageStep (fst (effect p1 path1 w)) w' →
  headScripts (fst (effect p2 path2 w')) =
    headScripts w ++ [scriptFor p1 (shouldHide (hideOnRoutes p1) path1)] ∧
  loadEffects (fst (effect p2 path2 w')) =
    loadEffects w ++ [LoadStartWrite (now w);
                      AppendScript (src (scriptFor p1 (shouldHide (hideOnRoutes p1) path1)))] ∧
  Tawk_LoadStart (fst (effect p2 path2 w')) = Some (now w) ∧
  trace (fst (effect p2 path2 w')) = trace w' ∧
  loadState (fst (effect p2 path2 w')) = loadState w'.
Proof.
  intros Hw Hsteps.
  destruct (pageSteps_loadState _ _ (effect_loaded p1 path1 w) Hsteps) as [Hs Hl].
  destruct (effect_when_loaded p2 path2 w' Hl) as [Hs2 Ht2].
  assert (loadState (fst (effect p1 path1 w)) =
          (headScripts w ++ [scriptFor p1 (shouldHide (hideOnRoutes p1) path1)],
           Some (now w),
           loadEffects w ++ [LoadStartWrite (now w);
                             AppendScript (src (scriptFor p1 (shouldHide (hideOnRoutes p1) path1)))],
           onerror (fst (effect p1 path1 w)),
           errorListeners (fst (effect p1 path1 w)),
           rejectionListeners (fst (effect p1 path1 w)),
           proxyDepth <$> Tawk_API (fst (effect p1 path1 w)))) as H1.
  { unfold effect. rewrite Hw.
    destruct (enableTitleProtection p1 && _), (enableErrorHandling p1);
      unfold loadState, loadEffects; simpl;
      rewrite !filter_app, <- app_assoc;
      rewrite (filter_cons_True _ (LoadStartWrite _)) by done;
      rewrite (filter_cons_True _ (AppendScript _)) by done;
      by rewrite !filter_nil. }
  pose proof Hs2 as Hfull. rewrite Hs, H1 in Hfull.
  split; [exact (f_equal (λ t, t.1.1.1.1.1.1) Hfull)|].
  split; [exact (f_equal (λ t, t.1.1.1.1.2) Hfull)|].
  split; [exact (f_equal (λ t, t.1.1.1.1.1.2) Hfull)|].
  done.
Qed.

Lemma C2_load_sequence_once_witness :
  let p1 := mkProps (js "prop1") (js "w1") [js "/customer"] true true Returns Returns in
  let p2 := mkProps (js "prop2") (js "w2") [js "/admin"] true false NotSupplied NotSupplied in
  let w := freshPage NoHandler (js "Home") 1000 in
  let w2 := fst (effect p2 (js "/") (fst (effect p1 (js "/customer/7") w))) in
  length (headScripts w2) = 1%nat ∧
  count isAppendScript (trace w2) = 1%nat ∧
  count isLoadStartWrite (trace w2) = 1%nat.
Proof.
  intros p1 p2 w w2.
  pose proof (C2_load_sequence_once p1 p2 (js "/customer/7") (js "/") w
                (fst (effect p1 (js "/customer/7") w)) eq_refl (rtc_refl _ _))
    as (Hh & _ & _ & _ & _).
  subst w2. rewrite Hh. by vm_compute.
Defined.

(* ===================================================================== *)
(** * Installing the containment layer *)
(* ===================================================================== *)

Lemma pristine_loadState host w w' :
  loadState w' = loadState w → pristine host w → pristine host w'.
Proof.
  unfold loadState, pristine. intros [= -> -> _ -> -> -> Hapi] (Ha & ? & ? & ? & ? & ?).
  rewrite Ha in Hapi. by destruct (Tawk_API w').
Qed.

(** Until the load sequence runs, nothing of it is on the page. *)
Lemma pristine_until_load host documentTitle clock w :
  rtc pageStep (freshPage host documentTitle clock) w →
  loadNeeded w = true → pristine host w.
Proof.
  revert w. apply (rtc_ind_r (λ w, loadNeeded w = true → pristine host w)); [done|].
  intros w w' Hsteps Hstep IH Hl'. destruct (loadNeeded w) eqn:Hl.
  - apply pageStep_loadState_or_effect in Hstep as [H | (p & pathname & ->)].
    + eapply pristine_loadState; [exact H | by apply IH].
    + by rewrite effect_loaded in Hl'.
  - pose proof (loadNeeded_loadState _ _ (pageStep_loadState w w' Hl Hstep)). congruence.
Qed.

(** The layer the first run of the load sequence installs. *)
Lemma layer_setup (host : Handler) (w : Page) :
  pristine host w →
  layer (setupErrorHandling w) =
    (TawkHandler host, [TawkListener (nextFn w)], [TawkListener (S (nextFn w))], Some 1%nat).
Proof.
  intros (Ha & Hs & _ & Ho & Hel & Hrl). unfold layer, setupErrorHandling.
  cbn [onerror errorListeners rejectionListeners Tawk_API nextFn setOnerror setListeners setTawkAPI].
  rewrite Ha, Ho, Hel, Hrl. unfold addEventListener.
  rewrite !(bool_decide_eq_false_2 (_ ∈ [])) by apply not_elem_of_nil. reflexivity.
Qed.

Lemma first_effect_installs (p : Props) (pathname : jsstring) (host : Handler) (w : Page) :
  pristine host w → enableErrorHandling p = true →
  layer (fst (effect p pathname w)) =
    (TawkHandler host, [TawkListener (nextFn w)], [TawkListener (S (nextFn w))], Some 1%nat).
Proof.
  intros Hp He. rewrite <- (layer_setup host w Hp).
  assert (loadNeeded w = true) as Hl.
  { destruct Hp as (Ha & _). unfold loadNeeded. by rewrite Ha. }
  unfold effect. rewrite Hl, He.
  assert (is_Some (Tawk_API (setupErrorHandling w))) as [api Hapi] by (by eexists).
  destruct (enableTitleProtection p && _); unfold layer;
    cbn [fst onerror errorListeners rejectionListeners Tawk_API setInterval setTimers
         emit setHead setLoadStart setTawkAPI]; by rewrite Hapi.
Qed.

(** C7. The controller installs the containment layer inside the load
    guard only, so installing again is idempotent.  In a process, after the
    run of the load sequence that installed the layer (error handling
    enabled), [window.onerror] is the host's handler wrapped once, there is
    one [error] listener, one [unhandledrejection] listener and one proxy;
    whatever happens on the page afterwards, another run of the effect,
    with any props, leaves exactly this layer; and then an error of the
    deny-list is suppressed and logged once, and a rejection the listener
    matches is suppressed and logged once. *)
Theorem C7_install_once_behind_guard (p1 p2 : Props) (path1 path2 : jsstring)
    (host : Handler) (documentTitle : jsstring) (clock : N) (w w' : Page)
    (a : ErrorArgs) (reason : option Reason) :
  rtc pageStep (freshPage host documentTitle clock) w →
  loadNeeded w = true →
  enableErrorHandling p1 = true →
  rtc pageStep (fst (effect p1 path1 w)) w' →
  let w1 := fst (effect p1 path1 w) in
  let w2 := fst (effect p2 path2 w') in
  layer w1 =
    (TawkHandler host, [TawkListener (nextFn w)], [TawkListener (S (nextFn w))],
     Some 1%nat) ∧
  layer w2 = layer w1 ∧
  (onDenyList (msg a) (url a) →
     trace (reportError a w2) =
       trace w2 ++ [PreventDefault; StopPropagation;
                    ConsoleWarn (js "TawkChatbot: Tawk.to error caught and prevented:")
                                (Some (msg a))]) ∧
  (rejectionMatch reason →
     trace (reportRejection reason w2) =
       trace w2 ++ [PreventDefault;
                    ConsoleWarn
                      (js "TawkChatbot: Tawk.to promise rejection caught and prevented")
                      None]).
Proof.
  intros Hreach Hw He Hsteps w1 w2.
  pose proof (pristine_until_load _ _ _ _ Hreach Hw) as Hp.
  pose proof (first_effect_installs p1 path1 host w Hp He) as H1. fold w1 in H1.
  destruct (pageSteps_loadState _ _ (effect_loaded p1 path1 _) Hsteps) as [Hs Hl].
  destruct (effect_when_loaded p2 path2 w' Hl) as [Hs2 _].
  fold w1 in Hs. fold w2 in Hs2. rewrite Hs in Hs2.
  assert (layer w2 = layer w1) as H2.
  { unfold layer, loadState in *. by injection Hs2 as _ _ _ -> -> -> ->. }
  split; [done|]. split; [done|].
  rewrite H1 in H2. unfold layer in H2. injection H2 as Ho Hel Hrl _.
  split.
  - intros Hd%deniedError_spec. unfold reportError, runErrorListeners, errorListener.
    rewrite Hel. cbn. by rewrite Hd.
  - intros Hr%deniedRejection_spec.
    unfold reportRejection, runRejectionListeners, rejectionListener.
    rewrite Hrl. cbn. by rewrite Hr.
Qed.

Lemma C7_install_once_behind_guard_witness :
  let p := mkProps (js "prop1") (js "w1") [js "/customer"] true true Returns Returns in
  let w := freshPage NoHandler (js "Home") 0 in
  let w' := reportError (mkErrorArgs (js "Tawk_API is not defined") [] 1 1 None)
              (tick (providerReady (fst (effect p (js "/a") w)))) in
  let w2 := fst (effect p (js "/b") w') in
  layer w2 = (TawkHandler NoHandler, [TawkListener 0], [TawkListener 1], Some 1%nat) ∧
  trace (reportError (mkErrorArgs (js "Tawk_API is not defined") [] 1 1 None) w2) =
    trace w2 ++ [PreventDefault; StopPropagation;
                 ConsoleWarn (js "TawkChatbot: Tawk.to error caught and prevented:")
                             (Some (js "Tawk_API is not defined"))].
Proof.
  intros p w w' w2.
  destruct (C7_install_once_behind_guard p p (js "/a") (js "/b") NoHandler (js "Home") 0
              w w' (mkErrorArgs (js "Tawk_API is not defined") [] 1 1 None) None)
    as (H1 & H2 & H3 & _).
  - apply rtc_refl.
  - reflexivity.
  - reflexivity.
  - apply (rtc_l _ _ (providerReady (fst (effect p (js "/a") w))));
      [exact (step_provider _ _)|].
    apply (rtc_l _ _ (tick (providerReady (fst (effect p (js "/a") w)))));
      [exact (step_tick _)|].
    apply rtc_once. exact (step_report _ _).
  - split; [etrans; [exact H2 | exact H1]|]. apply H3. apply deniedError_spec. by vm_compute.
Defined.

(* ===================================================================== *)
(** * The event loop *)
(* ===================================================================== *)

Lemma runCallback_frame cb w :
  timers (runCallback cb w) = timers w ∧
  nextTimer (runCallback cb w) = nextTimer w ∧
  now (runCallback cb w) = now w.
Proof.
  destruct cb as [hide tp | orig | inst botId]; simpl.
  - destruct hide.
    + unfold hideChatbot. destruct (Tawk_API w) as [api|]; [|done].
      destruct (hideWidget _), (setAttributes _), (_ && _); done.
    + unfold showChatbot. destruct (Tawk_API w) as [api|]; [|done].
      destruct (showWidget _), (setAttributes _); done.
  - unfold titleCheck. case_bool_decide; [|done]. by destruct (unreadShape _).
  - unfold botReply. by destruct (instances w !! inst).
Qed.

Lemma fire_frame w tm :
  timers (fire w tm) = timers w ∧
  nextTimer (fire w tm) = nextTimer w ∧
  now (fire w tm) = now w.
Proof.
  unfold fire.
  by destruct (runCallback_frame (callback tm) (emit [TimerFired (tid tm)] w))
    as (-> & -> & ->).
Qed.

Lemma foldl_fire_frame l w :
  timers (foldl fire w l) = timers w ∧
  nextTimer (foldl fire w l) = nextTimer w ∧
  now (foldl fire w l) = now w.
Proof.
  revert w. induction l as [|tm l IH]; intros w; simpl; [done|].
  destruct (IH (fire w tm)) as (-> & -> & ->). apply fire_frame.
Qed.

Lemma tick_now w : now (tick w) = now w + 1.
Proof.
  unfold tick.
  by destruct (foldl_fire_frame (dueNow w)
                 (setTimers (omap (rearm (now w + 1)) (timers w)) (nextTimer w)
                            (setNow (now w + 1) w))) as (_ & _ & ->).
Qed.

Lemma tick_timers w : timers (tick w) = omap (rearm (now w + 1)) (timers w).
Proof.
  unfold tick.
  by destruct (foldl_fire_frame (dueNow w)
                 (setTimers (omap (rearm (now w + 1)) (timers w)) (nextTimer w)
                            (setNow (now w + 1) w))) as (-> & _ & _).
Qed.

Lemma advance_now n w : now (advance n w) = now w + N.of_nat n.
Proof.
  revert w. induction n as [|n IH]; intros w; simpl.
  - lia.
  - rewrite IH, tick_now. lia.
Qed.

Lemma advance_add n m w : advance (n + m) w = advance m (advance n w).
Proof. revert w. induction n as [|n IH]; intros w; simpl; [done | apply IH]. Qed.

(** The trace only grows, and a timer that comes due is recorded in it. *)
Lemma runCallback_trace cb w : trace w `prefix_of` trace (runCallback cb w).
Proof.
  destruct cb as [hide tp | orig | inst botId]; simpl.
  - destruct hide.
    + unfold hideChatbot. destruct (Tawk_API w) as [api|]; [|done].
      destruct (hideWidget _), (setAttributes _), (_ && _); simpl;
        rewrite <- ?app_assoc; first [reflexivity | by apply prefix_app_r].
    + unfold showChatbot. destruct (Tawk_API w) as [api|]; [|done].
      destruct (showWidget _), (setAttributes _); simpl;
        rewrite <- ?app_assoc; first [reflexivity | by apply prefix_app_r].
  - unfold titleCheck. case_bool_decide; [|done]. destruct (unreadShape _); [|done].
    simpl. by apply prefix_app_r.
  - unfold botReply. by destruct (instances w !! inst).
Qed.

Lemma fire_trace w tm : trace w ++ [TimerFired (tid tm)] `prefix_of` trace (fire w tm).
Proof. unfold fire. apply (runCallback_trace _ (emit _ w)). Qed.

Lemma foldl_fire_trace l w : trace w `prefix_of` trace (foldl fire w l).
Proof.
  revert w. induction l as [|tm l IH]; intros w; simpl; [done|].
  etrans; [|apply IH]. etrans; [|apply fire_trace]. by apply prefix_app_r.
Qed.

Lemma tick_trace w : trace w `prefix_of` trace (tick w).
Proof. unfold tick. apply (foldl_fire_trace _ (setTimers _ _ (setNow _ w))). Qed.

Lemma advance_trace n w : trace w `prefix_of` trace (advance n w).
Proof.
  revert w. induction n as [|n IH]; intros w; simpl; [done|].
  etrans; [apply tick_trace | apply IH].
Qed.

Lemma foldl_fire_fired l w tm :
  tm ∈ l → TimerFired (tid tm) ∈ trace (foldl fire w l).
Proof.
  revert w. induction l as [|tm' l IH]; intros w Hin; [by apply elem_of_nil in Hin|].
  apply elem_of_cons in Hin as [-> | Hin]; simpl.
  - eapply elem_of_prefix; [|apply foldl_fire_trace].
    eapply elem_of_prefix; [|apply fire_trace].
    apply elem_of_app. right. apply list_elem_of_here.
  - by apply IH.
Qed.

Lemma elem_of_dueNow w tm :
  tm ∈ dueNow w ↔ tm ∈ timers w ∧ due tm ≤ now w + 1.
Proof.
  unfold dueNow. rewrite list_elem_of_filter. unfold isDue.
  rewrite N.leb_le. tauto.
Qed.

Lemma tick_fired w tm :
  tm ∈ dueNow w → TimerFired (tid tm) ∈ trace (tick w).
Proof. intros Hin. unfold tick. by apply foldl_fire_fired. Qed.

(* ===================================================================== *)
(** * The simulated reply *)
(* ===================================================================== *)

Section Reply.
Variable inst : nat.

Lemma botReply_lookup b w :
  instances (botReply inst b w) !! inst = replied b (now w) <$> instances w !! inst.
Proof.
  unfold botReply. destruct (instances w !! inst) as [st|] eqn:E; simpl.
  - by rewrite lookup_insert_eq.
  - by rewrite E.
Qed.

Lemma runCallback_lookup_other cb w :
  (∀ b, cb ≠ BotReply inst b) →
  instances (runCallback cb w) !! inst = instances w !! inst.
Proof.
  intros Hcb. destruct cb as [hide tp | orig | i b]; simpl.
  - destruct hide.
    + unfold hideChatbot. destruct (Tawk_API w) as [api|]; [|done].
      destruct (hideWidget _), (setAttributes _), (_ && _); done.
    + unfold showChatbot. destruct (Tawk_API w) as [api|]; [|done].
      destruct (showWidget _), (setAttributes _); done.
  - unfold titleCheck. case_bool_decide; [|done]. by destruct (unreadShape _).
  - unfold botReply. destruct (instances w !! i) as [st|]; [|done].
    simpl. apply lookup_insert_ne. intros ->. by apply (Hcb b).
Qed.

Lemma fire_lookup_other w tm :
  isBotReplyFor inst tm = false →
  instances (fire w tm) !! inst = instances w !! inst.
Proof.
  intros H. unfold fire. rewrite runCallback_lookup_other; [done|].
  intros b Hb. unfold isBotReplyFor in H. rewrite Hb in H.
  by rewrite bool_decide_eq_false in H.
Qed.

Lemma fire_lookup_reply w tm b :
  callback tm = BotReply inst b →
  instances (fire w tm) !! inst = replied b (now w) <$> instances w !! inst.
Proof. intros H. unfold fire. rewrite H. simpl. by rewrite botReply_lookup. Qed.

Lemma foldl_fire_lookup_other l w :
  Forall (λ tm, isBotReplyFor inst tm = false) l →
  instances (foldl fire w l) !! inst = instances w !! inst.
Proof.
  intros H. revert w. induction H as [|tm l Htm _ IH]; intros w; simpl; [done|].
  by rewrite IH, fire_lookup_other.
Qed.

Lemma no_replies_Forall l :
  filter (λ tm, isBotReplyFor inst tm = true) l = [] →
  Forall (λ tm, isBotReplyFor inst tm = false) l.
Proof.
  intros H. apply Forall_forall. intros tm Hin.
  destruct (isBotReplyFor inst tm) eqn:E; [|done].
  by destruct (filter_nil_not_elem_of _ l tm H E).
Qed.

(** Running the callbacks of the due timers of a queue that holds one
    reply to [inst], which is due. *)
Lemma foldl_fire_lookup_reply (t : N) l w T b :
  filter (λ tm, isBotReplyFor inst tm = true) l = [T] →
  isDue t T = true →
  callback T = BotReply inst b →
  instances (foldl fire w (filter (λ tm, isDue t tm = true) l)) !! inst =
    replied b (now w) <$> instances w !! inst.
Proof.
  intros Hl HT Hb. revert w Hl. induction l as [|tm l IH]; intros w Hl; [done|].
  rewrite filter_cons in Hl. case_decide as Hp.
  - injection Hl as -> Hl.
    rewrite filter_cons_True by done. simpl.
    rewrite foldl_fire_lookup_other.
    + by apply fire_lookup_reply.
    + pose proof (no_replies_Forall l Hl) as HF. rewrite Forall_forall in HF.
      apply Forall_forall. intros tm [Hd Hin]%list_elem_of_filter.
      by apply HF.
  - apply not_true_is_false in Hp. rewrite filter_cons. case_decide.
    + simpl. rewrite IH by done.
      rewrite fire_lookup_other by done.
      by destruct (fire_frame w tm) as (_ & _ & ->).
    + by apply IH.
Qed.

Lemma rearm_callback t tm tm' : rearm t tm = Some tm' → callback tm' = callback tm.
Proof.
  unfold rearm. destruct (isDue t tm); [|by intros [= <-]].
  destruct (interval tm); [by intros [= <-] | done].
Qed.

Lemma omap_rearm_cons t tm (l : list Timer) :
  omap (rearm t) (tm :: l) =
  match rearm t tm with
  | Some tm' => tm' :: omap (rearm t) l
  | None => omap (rearm t) l
  end.
Proof. done. Qed.

Lemma filter_rearm t (l : list Timer) :
  filter (λ tm, isBotReplyFor inst tm = true) (omap (rearm t) l) =
  omap (rearm t) (filter (λ tm, isBotReplyFor inst tm = true) l).
Proof.
  induction l as [|tm l IH]; [done|].
  rewrite omap_rearm_cons, (filter_cons _ tm).
  destruct (rearm t tm) as [tm'|] eqn:E.
  - assert (isBotReplyFor inst tm' = isBotReplyFor inst tm) as Hsame.
    { unfold isBotReplyFor. by rewrite (rearm_callback _ _ _ E). }
    rewrite filter_cons, Hsame.
    case_decide; by rewrite ?omap_rearm_cons, ?E, IH.
  - case_decide; by rewrite ?omap_rearm_cons, ?E, IH.
Qed.

Lemma pendingReplies_tick w :
  pendingReplies inst (tick w) = omap (rearm (now w + 1)) (pendingReplies inst w).
Proof. unfold pendingReplies. by rewrite tick_timers, filter_rearm. Qed.

(** While the reply is not due, a millisecond changes neither the
    instance nor the pending reply. *)
Lemma tick_waiting T w :
  pendingReplies inst w = [T] → now w + 1 < due T →
  pendingReplies inst (tick w) = [T] ∧
  instances (tick w) !! inst = instances w !! inst.
Proof.
  intros Hp Hdue. split.
  - rewrite pendingReplies_tick, Hp. simpl. unfold rearm, isDue.
    by rewrite (proj2 (N.leb_gt _ _) Hdue).
  - unfold tick. rewrite foldl_fire_lookup_other; [done|].
    apply Forall_forall. intros tm [Hin Hd]%elem_of_dueNow.
    destruct (isBotReplyFor inst tm) eqn:E; [|done].
    assert (tm ∈ pendingReplies inst w) as HinP
      by by apply list_elem_of_filter.
    rewrite Hp in HinP. apply list_elem_of_singleton in HinP as ->. lia.
Qed.

Lemma advance_waiting k T w :
  pendingReplies inst w = [T] → now w + N.of_nat k < due T →
  pendingReplies inst (advance k w) = [T] ∧
  instances (advance k w) !! inst = instances w !! inst.
Proof.
  revert w. induction k as [|k IH]; intros w Hp Hdue; simpl; [done|].
  destruct (tick_waiting T w Hp) as [Hp' Hi']; [lia|].
  destruct (IH (tick w) Hp') as [Hp'' Hi'']; [rewrite tick_now; lia|].
  split; [done | congruence].
Qed.

(** The millisecond at which the reply is due. *)
Lemma tick_reply T b w :
  pendingReplies inst w = [T] → due T = now w + 1 →
  callback T = BotReply inst b → interval T = None →
  T ∈ dueNow w ∧
  pendingReplies inst (tick w) = [] ∧
  instances (tick w) !! inst = replied b (now w + 1) <$> instances w !! inst.
Proof.
  intros Hp Hdue Hcb Hint.
  assert (isDue (now w + 1) T = true) as HD by (unfold isDue; apply N.leb_le; lia).
  split; [|split].
  - apply elem_of_dueNow. split; [|lia].
    assert (T ∈ pendingReplies inst w) as HinP by (rewrite Hp; apply list_elem_of_here).
    by apply list_elem_of_filter in HinP as [_ ?].
  - rewrite pendingReplies_tick, Hp. simpl. unfold rearm. by rewrite HD, Hint.
  - unfold tick, dueNow. by rewrite (foldl_fire_lookup_reply _ _ _ T b).
Qed.

(** An instance that is not mounted stays so as time passes. *)
Lemma tick_unmounted w :
  instances w !! inst = None → instances (tick w) !! inst = None.
Proof.
  intros Hn. unfold tick.
  generalize (dueNow w). intros l.
  assert (instances (setTimers (omap (rearm (now w + 1)) (timers w)) (nextTimer w)
                               (setNow (now w + 1) w)) !! inst = None) as H0 by done.
  revert H0. generalize (setTimers (omap (rearm (now w + 1)) (timers w)) (nextTimer w)
                                   (setNow (now w + 1) w)).
  induction l as [|tm l IH]; intros w0 H0; simpl; [done|].
  apply IH. destruct (isBotReplyFor inst tm) eqn:E.
  - unfold isBotReplyFor in E. destruct (callback tm) as [| |i b] eqn:Hcb; try done.
    apply bool_decide_eq_true in E as ->.
    rewrite (fire_lookup_reply _ _ b Hcb). simpl in H0. by rewrite H0.
  - by rewrite fire_lookup_other.
Qed.

Lemma advance_unmounted n w :
  instances w !! inst = None → instances (advance n w) !! inst = None.
Proof.
  revert w. induction n as [|n IH]; intros w H; simpl; [done|].
  by apply IH, tick_unmounted.
Qed.
End Reply.

(** What a [send()] that passes the guard leaves behind, whatever the sink
    does. *)
Lemma send_state (onMessage : HostFn) (inst : nat) (w : Page) (st : ConversationState) :
  instances w !! inst = Some st →
  trim (inputValue st) ≠ [] →
  isTyping st = false →
  instances (handleSendMessage onMessage inst w) =
    <[inst := mkConversation (isOpen st)
                (messages st ++ [mkMessage (length (messages st) + 1)
                                           (trim (inputValue st)) user (now w)])
                [] true]> (instances w) ∧
  nextInstance (handleSendMessage onMessage inst w) = nextInstance w ∧
  now (handleSendMessage onMessage inst w) = now w ∧
  trace (handleSendMessage onMessage inst w) =
    trace w ++ (if supplied onMessage then [OnMessage (trim (inputValue st))] else []).
Proof.
  intros Hst Hdraft Hty. unfold handleSendMessage. rewrite Hst, Hty.
  destruct (trim (inputValue st)) as [|c s] eqn:E; [done|].
  destruct onMessage; simpl; by rewrite ?app_nil_r.
Qed.

(** With no sink, or one that returns, the reply is scheduled. *)
Lemma send_result (onMessage : HostFn) (inst : nat) (w : Page) (st : ConversationState) :
  instances w !! inst = Some st →
  trim (inputValue st) ≠ [] →
  isTyping st = false →
  onMessage ≠ Throws →
  instances (handleSendMessage onMessage inst w) =
    <[inst := mkConversation (isOpen st)
                (messages st ++ [mkMessage (length (messages st) + 1)
                                           (trim (inputValue st)) user (now w)])
                [] true]> (instances w) ∧
  timers (handleSendMessage onMessage inst w) =
    timers w ++ [mkTimer (nextTimer w) (now w + 1000) None
                         (BotReply inst (length (messages st) + 2))] ∧
  now (handleSendMessage onMessage inst w) = now w ∧
  trace (handleSendMessage onMessage inst w) =
    trace w ++ (if supplied onMessage then [OnMessage (trim (inputValue st))] else []).
Proof.
  intros Hst Hdraft Hty Hsink.
  destruct (send_state onMessage inst w st Hst Hdraft Hty) as (Hi & _ & Hn & Htr).
  split; [done|]. split; [|done]. unfold handleSendMessage. rewrite Hst, Hty.
  destruct (trim (inputValue st)) as [|c s] eqn:E; [done|].
  by destruct onMessage.
Qed.

(** With a sink that throws, the timer queue is left as it was. *)
Lemma send_threw (inst : nat) (w : Page) :
  timers (handleSendMessage Throws inst w) = timers w ∧
  nextTimer (handleSendMessage Throws inst w) = nextTimer w.
Proof.
  unfold handleSendMessage. destruct (instances w !! inst) as [st|]; [|done].
  by destruct (_ || _).
Qed.

Lemma send_pending (onMessage : HostFn) (inst : nat) (w : Page) (st : ConversationState) :
  instances w !! inst = Some st →
  trim (inputValue st) ≠ [] →
  isTyping st = false →
  onMessage ≠ Throws →
  pendingReplies inst w = [] →
  pendingReplies inst (handleSendMessage onMessage inst w) =
    [mkTimer (nextTimer w) (now w + 1000) None (BotReply inst (length (messages st) + 2))].
Proof.
  intros Hst Hdraft Hty Hsink Hidle.
  destruct (send_result onMessage inst w st Hst Hdraft Hty Hsink) as (_ & Ht & _ & _).
  unfold pendingReplies in *. rewrite Ht, filter_app, Hidle.
  rewrite filter_cons_True; [done|].
  unfold isBotReplyFor. simpl. by apply bool_decide_eq_true.
Qed.

(* ===================================================================== *)
(** * Invariants of the pages of a process *)
(* ===================================================================== *)

Lemma runCallback_nextInstance cb w : nextInstance (runCallback cb w) = nextInstance w.
Proof.
  destruct cb as [hide tp | orig | inst botId]; simpl.
  - destruct hide.
    + unfold hideChatbot. destruct (Tawk_API w) as [api|]; [|done].
      destruct (hideWidget _), (setAttributes _), (_ && _); done.
    + unfold showChatbot. destruct (Tawk_API w) as [api|]; [|done].
      destruct (showWidget _), (setAttributes _); done.
  - unfold titleCheck. case_bool_decide; [|done]. by destruct (unreadShape _).
  - unfold botReply. by destruct (instances w !! inst).
Qed.

Lemma foldl_fire_nextInstance l w : nextInstance (foldl fire w l) = nextInstance w.
Proof.
  revert w. induction l as [|tm l IH]; intros w; simpl; [done|].
  rewrite IH. unfold fire. by rewrite runCallback_nextInstance.
Qed.

Lemma tick_nextInstance w : nextInstance (tick w) = nextInstance w.
Proof. unfold tick. by rewrite foldl_fire_nextInstance. Qed.

Lemma tick_nextTimer w : nextTimer (tick w) = nextTimer w.
Proof.
  unfold tick.
  by destruct (foldl_fire_frame (dueNow w)
                 (setTimers (omap (rearm (now w + 1)) (timers w)) (nextTimer w)
                            (setNow (now w + 1) w))) as (_ & -> & _).
Qed.

Lemma rearm_tid t tm tm' : rearm t tm = Some tm' → tid tm' = tid tm.
Proof.
  unfold rearm. destruct (isDue t tm); [|by intros [= <-]].
  destruct (interval tm); [by intros [= <-] | done].
Qed.

(** ** Timer identifiers *)

Lemma idsOk_rearm t ts n : idsOk ts n → idsOk (omap (rearm t) ts) n.
Proof.
  intros [Hnd Hlt]. split.
  - clear Hlt. induction ts as [|tm l IH]; [done|].
    rewrite fmap_cons in Hnd. apply NoDup_cons in Hnd as [Hnotin Hnd].
    rewrite omap_rearm_cons. destruct (rearm t tm) as [tm'|] eqn:E; [|by apply IH].
    rewrite fmap_cons. apply NoDup_cons. split; [|by apply IH].
    rewrite (rearm_tid _ _ _ E). intros Hin. apply Hnotin.
    apply list_elem_of_fmap in Hin as (y & Hy & Hin).
    apply list_elem_of_omap in Hin as (z & Hz & Hre).
    apply list_elem_of_fmap. exists z. split; [|done].
    by rewrite Hy, (rearm_tid _ _ _ Hre).
  - rewrite Forall_forall in *. intros tm' (tm & Hin & Hre)%list_elem_of_omap.
    rewrite (rearm_tid _ _ _ Hre). by apply Hlt.
Qed.

Lemma idsOk_push ts n d iv cb :
  idsOk ts n → idsOk (ts ++ [mkTimer n d iv cb]) (Pos.succ n).
Proof.
  intros [Hnd Hlt]. split.
  - rewrite fmap_app. apply NoDup_app. split; [done|]. split; [|apply NoDup_singleton].
    intros x Hin Hx. apply list_elem_of_singleton in Hx. simpl in Hx. subst x.
    apply list_elem_of_fmap in Hin as (tm & Heq & Hin).
    rewrite Forall_forall in Hlt. specialize (Hlt tm Hin). lia.
  - apply Forall_app. split.
    + eapply Forall_impl; [done|]. intros tm Htm. simpl in Htm. lia.
    + repeat constructor. simpl. lia.
Qed.

Lemma idsOk_filter (P : Timer → Prop) `{∀ tm, Decision (P tm)} ts n :
  idsOk ts n → idsOk (filter P ts) n.
Proof.
  intros [Hnd Hlt]. split.
  - eapply sublist_NoDup; [done|]. apply fmap_sublist, sublist_filter.
  - rewrite Forall_forall in *. intros tm [_ Hin]%list_elem_of_filter. by apply Hlt.
Qed.

Lemma idsOk_unique ts n tm tm' :
  idsOk ts n → tm ∈ ts → tm' ∈ ts → tid tm = tid tm' → tm = tm'.
Proof.
  intros [Hnd _]. induction ts as [|x l IH]; intros Hin Hin' Heq.
  - by apply elem_of_nil in Hin.
  - rewrite fmap_cons in Hnd. apply NoDup_cons in Hnd as [Hnotin Hnd].
    apply elem_of_cons in Hin as [-> | Hin]; apply elem_of_cons in Hin' as [-> | Hin'].
    + done.
    + destruct Hnotin. rewrite Heq. by apply list_elem_of_fmap_2.
    + destruct Hnotin. rewrite <- Heq. by apply list_elem_of_fmap_2.
    + by apply IH.
Qed.

(** ** The engine's invariant *)

Lemma engineInv_frame w w' :
  instances w' = instances w → nextInstance w' = nextInstance w → now w' = now w →
  (∀ inst, pendingReplies inst w' = pendingReplies inst w) →
  engineInv w → engineInv w'.
Proof.
  intros Hi Hn Ht Hp H inst. specialize (H inst). by rewrite Hi, Hn, Ht, Hp.
Qed.

Lemma pendingReplies_push inst w w' tm :
  timers w' = timers w ++ [tm] → isBotReplyFor inst tm = false →
  pendingReplies inst w' = pendingReplies inst w.
Proof.
  intros Ht Hno. unfold pendingReplies. rewrite Ht, filter_app.
  rewrite filter_cons_False by congruence. apply app_nil_r.
Qed.

Lemma pending_is_reply inst w T :
  T ∈ pendingReplies inst w → ∃ b, callback T = BotReply inst b.
Proof.
  intros [H _]%list_elem_of_filter. unfold isBotReplyFor in H.
  destruct (callback T) as [| |i b]; try done.
  apply bool_decide_eq_true in H as ->. eauto.
Qed.

Lemma tick_idle inst w :
  pendingReplies inst w = [] →
  pendingReplies inst (tick w) = [] ∧
  instances (tick w) !! inst = instances w !! inst.
Proof.
  intros Hp. split.
  - by rewrite pendingReplies_tick, Hp.
  - unfold tick. rewrite foldl_fire_lookup_other; [done|].
    apply Forall_forall. intros tm [Hin _]%elem_of_dueNow.
    pose proof (no_replies_Forall inst (timers w) Hp) as HF.
    rewrite Forall_forall in HF. by apply HF.
Qed.

Lemma engineInv_tick w : engineInv w → engineInv (tick w).
Proof.
  intros H inst. specialize (H inst). rewrite tick_nextInstance, tick_now.
  destruct (instances w !! inst) as [st|] eqn:E.
  - destruct H as [Hlt H]. destruct (isTyping st) eqn:Ety.
    + destruct H as [Hp | (T & Hp & Hint & Hdue)].
      { destruct (tick_idle inst w Hp) as [-> ->]. rewrite E, Ety. by split; [|left]. }
      destruct (pending_is_reply inst w T) as [b Hcb];
        [rewrite Hp; apply list_elem_of_here|].
      destruct (decide (due T = now w + 1)) as [Hd | Hd].
      * destruct (tick_reply inst T b w Hp Hd Hcb Hint) as (_ & -> & ->).
        rewrite E. simpl. done.
      * destruct (tick_waiting inst T w Hp) as [-> ->]; [lia|].
        rewrite E, Ety. split; [done|]. right. exists T. split; [done|].
        split; [done | lia].
    + destruct (tick_idle inst w H) as [-> ->]. by rewrite E, Ety.
  - rewrite (tick_unmounted inst w E). intros Hge.
    by destruct (tick_idle inst w (H Hge)) as [-> _].
Qed.

Lemma engineInv_mount w : engineInv w → engineInv (fst (mountVeeyaa w)).
Proof.
  intros H inst. pose proof (H inst) as Hi. pose proof (H (nextInstance w)) as Hnext.
  simpl. change (pendingReplies inst (setInstances _ _ w)) with (pendingReplies inst w).
  destruct (decide (inst = nextInstance w)) as [-> | Hne].
  - rewrite lookup_insert_eq. simpl. split; [lia|].
    destruct (instances w !! nextInstance w); [lia | by apply Hnext].
  - rewrite lookup_insert_ne by done.
    destruct (instances w !! inst) as [st|].
    + destruct Hi as [Hlt Hi]. split; [lia | done].
    + intros Hge. apply Hi. lia.
Qed.

Lemma engineInv_unmount i w : engineInv w → engineInv (unmountVeeyaa i w).
Proof.
  intros H inst. pose proof (H inst) as Hi.
  simpl. change (pendingReplies inst (setInstances _ _ w)) with (pendingReplies inst w).
  destruct (decide (inst = i)) as [-> | Hne].
  - rewrite lookup_delete_eq. destruct (instances w !! i); [lia | done].
  - by rewrite lookup_delete_ne.
Qed.

Lemma engineInv_draft i value w : engineInv w → engineInv (updateDraft i value w).
Proof.
  intros H inst. pose proof (H inst) as Hi. unfold updateDraft.
  destruct (instances w !! i) as [st|] eqn:E; [|done].
  simpl. change (pendingReplies inst (setInstances _ _ w)) with (pendingReplies inst w).
  destruct (decide (inst = i)) as [-> | Hne].
  - rewrite lookup_insert_eq. by rewrite E in Hi.
  - by rewrite lookup_insert_ne.
Qed.

Lemma engineInv_send onMessage i w :
  engineInv w → engineInv (handleSendMessage onMessage i w).
Proof.
  intros H. destruct (instances w !! i) as [st|] eqn:E;
    [|unfold handleSendMessage; by rewrite E].
  destruct (negb (truthy (trim (inputValue st))) || isTyping st) eqn:G;
    [unfold handleSendMessage; by rewrite E, G|].
  apply orb_false_iff in G as [Hdraft Hty].
  assert (trim (inputValue st) ≠ []) as Hne by (by destruct (trim (inputValue st))).
  pose proof (H i) as Hi. rewrite E, Hty in Hi. destruct Hi as [Hlt Hidle].
  destruct (send_state onMessage i w st E Hne Hty) as (Hinst & Hnext & Hnow & _).
  intros inst. rewrite Hinst, Hnext, Hnow.
  destruct (decide (onMessage = Throws)) as [-> | Hsink].
  - assert (pendingReplies inst (handleSendMessage Throws i w) = pendingReplies inst w)
      as ->.
    { unfold pendingReplies. by destruct (send_threw i w) as [-> _]. }
    destruct (decide (inst = i)) as [-> | Hni].
    + rewrite lookup_insert_eq. simpl. by split; [|left].
    + rewrite lookup_insert_ne by done. apply H.
  - destruct (send_result onMessage i w st E Hne Hty Hsink) as (_ & Htm & _).
    destruct (decide (inst = i)) as [-> | Hni].
    + rewrite lookup_insert_eq. simpl. split; [done|]. right.
      eexists. split; [by apply send_pending|]. simpl. split; [done | lia].
    + rewrite lookup_insert_ne by done.
      rewrite (pendingReplies_push inst w _ _ Htm).
      * apply H.
      * unfold isBotReplyFor. simpl. by apply bool_decide_eq_false.
Qed.

(** The controller's operations set and clear timers that are not replies. *)
Lemma effect_engine p pathname w :
  instances (fst (effect p pathname w)) = instances w ∧
  nextInstance (fst (effect p pathname w)) = nextInstance w ∧
  now (fst (effect p pathname w)) = now w ∧
  (∀ inst, pendingReplies inst (fst (effect p pathname w)) = pendingReplies inst w) ∧
  (idsOk (timers w) (nextTimer w) →
   idsOk (timers (fst (effect p pathname w))) (nextTimer (fst (effect p pathname w)))).
Proof.
  unfold effect.
  destruct (loadNeeded w), (enableErrorHandling p),
    (enableTitleProtection p && shouldHide (hideOnRoutes p) pathname);
    cbn;
    (split; [done|]; split; [done|]; split; [done|]; split;
     [ intros inst; unfold pendingReplies; cbn;
       rewrite ?filter_app, ?(filter_none (isBotReplyFor inst) [_])
         by (by repeat constructor);
       by rewrite ?app_nil_r
     | intros Hids; repeat apply idsOk_push; done ]).
Qed.

Lemma cleanup_engine tm0 w :
  idsOk (timers w) (nextTimer w) → tm0 ∈ timers w → isTitleCheck tm0 = true →
  ∀ inst, pendingReplies inst (cleanup (Some (tid tm0)) w) = pendingReplies inst w.
Proof.
  intros Hids Hin0 Htc inst. unfold pendingReplies. simpl.
  assert (∀ tm, tm ∈ timers w → isBotReplyFor inst tm = true → tid tm ≠ tid tm0) as Hother.
  { intros tm Hin Hbr Heq.
    rewrite (idsOk_unique _ _ tm tm0 Hids Hin Hin0 Heq) in Hbr.
    unfold isBotReplyFor in Hbr. unfold isTitleCheck in Htc.
    by destruct (callback tm0). }
  clear Hids Hin0. induction (timers w) as [|tm l IH]; [done|].
  rewrite (filter_cons (λ t, tid t ≠ tid tm0)), (filter_cons _ tm l).
  assert (filter (λ tm, isBotReplyFor inst tm = true)
                 (filter (λ t, tid t ≠ tid tm0) l) =
          filter (λ tm, isBotReplyFor inst tm = true) l) as IH'.
  { apply IH. intros tm' Hin'. apply Hother. by apply list_elem_of_further. }
  case_decide as Hne.
  - rewrite filter_cons. by rewrite IH'.
  - rewrite IH'. case_decide as Hbr; [|done].
    exfalso. eapply Hother; [apply list_elem_of_here | done | done].
Qed.

(** Every page of a process has distinct timer identifiers and satisfies
    the engine's invariant. *)
Lemma engineInv_update i st0 st1 w :
  instances w !! i = Some st0 → isTyping st1 = isTyping st0 →
  engineInv w →
  engineInv (setInstances (<[i := st1]> (instances w)) (nextInstance w) w).
Proof.
  intros H0 Ht H inst. pose proof (H inst) as Hi.
  cbn. change (pendingReplies inst (setInstances _ _ w)) with (pendingReplies inst w).
  destruct (decide (inst = i)) as [-> | Hne].
  - rewrite lookup_insert_eq. rewrite H0 in Hi. by rewrite Ht.
  - by rewrite lookup_insert_ne.
Qed.

Lemma scriptOnload_engine s w :
  instances (scriptOnload s w) = instances w ∧
  nextInstance (scriptOnload s w) = nextInstance w ∧
  now (scriptOnload s w) = now w ∧
  (∀ inst, pendingReplies inst (scriptOnload s w) = pendingReplies inst w) ∧
  (idsOk (timers w) (nextTimer w) →
   idsOk (timers (scriptOnload s w)) (nextTimer (scriptOnload s w))).
Proof.
  unfold scriptOnload.
  destruct (script_onLoad s); (split; [done|]; split; [done|]; split; [done|]; split);
    try done; try (intros Hids; by apply idsOk_push);
    intros inst; by eapply pendingReplies_push.
Qed.

Lemma pageStep_inv w w' :
  pageStep w w' →
  idsOk (timers w) (nextTimer w) ∧ engineInv w →
  idsOk (timers w') (nextTimer w') ∧ engineInv w'.
Proof.
  intros Hstep [Hids Hinv]. destruct Hstep.
  - split; [|by apply engineInv_tick].
    rewrite tick_timers, tick_nextTimer. by apply idsOk_rearm.
  - destruct (scriptOnload_engine s w) as (Hi & Hn & Ht & Hp & Hok).
    split; [by apply Hok | by apply (engineInv_frame w)].
  - split.
    + unfold scriptOnerror. by destruct (supplied (script_onError s)).
    + apply (engineInv_frame w); [..|exact Hinv];
        unfold scriptOnerror; by destruct (supplied (script_onError s)).
  - by destruct (reportError_shape a w) as (es & -> & _).
  - done.
  - done.
  - done.
  - destruct (effect_engine p pathname w) as (Hi & Hn & Ht & Hp & Hok).
    split; [by apply Hok | by apply (engineInv_frame w)].
  - split; [by apply idsOk_filter|].
    apply (engineInv_frame w); [done | done | done | | exact Hinv].
    by apply cleanup_engine.
  - split; [done | by apply engineInv_mount].
  - split; [done | by apply engineInv_unmount].
  - split; [|by apply engineInv_draft].
    unfold updateDraft. by destruct (instances w !! inst).
  - split; [|by apply engineInv_send].
    unfold handleSendMessage. destruct (instances w !! inst) as [st|]; [|done].
    destruct (_ || _); [done|]. destruct onMessage; done || by apply idsOk_push.
  - unfold toggleChat. destruct (instances w !! inst) as [st|] eqn:E; [|done].
    split; [done | by apply (engineInv_update inst st)].
  - unfold closeWhenHidden. destruct (instances w !! inst) as [st|] eqn:E; [|done].
    destruct (_ && _); [|done]. split; [done | by apply (engineInv_update inst st)].
Qed.

Lemma reachable_inv w : reachable w → idsOk (timers w) (nextTimer w) ∧ engineInv w.
Proof.
  intros (host & documentTitle & clock & Hsteps).
  assert (idsOk (timers (freshPage host documentTitle clock))
                (nextTimer (freshPage host documentTitle clock)) ∧
          engineInv (freshPage host documentTitle clock)) as H0.
  { split; [split; [apply NoDup_nil_2 | constructor]|].
    intros inst. simpl. by rewrite lookup_empty. }
  revert H0. induction Hsteps as [w | w w1 w2 Hstep _ IH]; [done|].
  intros H0. by apply IH, (pageStep_inv w w1).
Qed.

(** While an instance is not typing, no reply to it is pending. *)
Lemma reachable_idle w inst st :
  reachable w → instances w !! inst = Some st → isTyping st = false →
  pendingReplies inst w = [].
Proof.
  intros [_ H]%reachable_inv Hst Hty. specialize (H inst).
  rewrite Hst, Hty in H. by destruct H.
Qed.


(** With no reply pending, the passing of time leaves an instance alone. *)
Lemma advance_idle inst k w :
  pendingReplies inst w = [] →
  pendingReplies inst (advance k w) = [] ∧
  instances (advance k w) !! inst = instances w !! inst.
Proof.
  revert w. induction k as [|k IH]; intros w Hp; simpl; [done|].
  destruct (tick_idle inst w Hp) as [Hp' Hi'].
  destruct (IH (tick w) Hp') as [Hp'' Hi'']. split; [done | congruence].
Qed.

Lemma draftPage_reachable : reachable draftPage.
Proof.
  exists NoHandler, (js "Home"), 0.
  eapply rtc_l; [apply step_mount|].
  eapply rtc_l; [apply (step_toggle 0)|].
  eapply rtc_l; [apply (step_draft 0 (js "Hello"))|]. apply rtc_refl.
Qed.

(** C5 (as stated) fails when the sink throws: the instance with its panel
    open and the draft "Hello" sends to a sink that throws; the user
    message is appended, the draft cleared, [isTyping] set and the sink
    called, but no reply is scheduled, and 1000 ms later there is no bot
    message and [isTyping] is still true. *)
Lemma C5_sink_throws_counterexample :
  reachable draftPage ∧
  instances draftPage !! 0%nat =
    Some (mkConversation true [mkMessage 1 welcomeText bot 0] (js "Hello") false) ∧
  trim (js "Hello") ≠ [] ∧
  trace sinkThrewPage = [OnMessage (js "Hello")] ∧
  timers sinkThrewPage = [] ∧
  instances (advance 1000 sinkThrewPage) !! 0%nat =
    Some (mkConversation true
            [mkMessage 1 welcomeText bot 0; mkMessage 2 (js "Hello") user 0] [] true) ∧
  ¬ (∃ st', instances (advance 1000 sinkThrewPage) !! 0%nat = Some st' ∧
            last (messages st') = Some (mkMessage 3 botText bot 1000) ∧
            isTyping st' = false).
Proof.
  assert (instances (advance 1000 sinkThrewPage) !! 0%nat =
          Some (mkConversation true
                  [mkMessage 1 welcomeText bot 0; mkMessage 2 (js "Hello") user 0] [] true))
    as H by by vm_compute.
  split; [apply draftPage_reachable|]. split; [by vm_compute|]. split; [by vm_compute|].
  split; [by vm_compute|]. split; [by vm_compute|]. split; [exact H|].
  intros (st' & Hst' & _ & Hty). rewrite H in Hst'. injection Hst' as <-. done.
Qed.

(** C5 (as the code has it). On every page of a process, [send()] with a
    draft that trims to a non-empty text, while [isTyping] is false: at
    once (the clock has not moved) the user message with the trimmed text
    is appended, the draft is cleared, [isTyping] is true and the sink,
    when supplied, has been called with the trimmed text.  When no sink was
    supplied or the sink returned, the instance stays so for the next
    999 ms, and at 1000 ms the bot message with the fixed text is appended
    and [isTyping] is false again.  When the sink threw, no reply is
    scheduled: the timer queue is as before the call, and as time passes
    the instance stays as the send left it, [isTyping] true. *)
Theorem C5_send_then_reply (onMessage : HostFn) (inst : nat) (w : Page)
    (st : ConversationState) :
  reachable w →
  instances w !! inst = Some st →
  trim (inputValue st) ≠ [] →
  isTyping st = false →
  let userMessage :=
    mkMessage (length (messages st) + 1) (trim (inputValue st)) user (now w) in
  let botMessage :=
    mkMessage (length (messages st) + 2) botText bot (now w + 1000) in
  let sent := mkConversation (isOpen st) (messages st ++ [userMessage]) [] true in
  let w1 := handleSendMessage onMessage inst w in
  instances w1 !! inst = Some sent ∧
  now w1 = now w ∧
  trace w1 =
    trace w ++ (if supplied onMessage then [OnMessage (trim (inputValue st))] else []) ∧
  (onMessage ≠ Throws →
     (∀ k, (k < 1000)%nat → instances (advance k w1) !! inst = Some sent) ∧
     instances (advance 1000 w1) !! inst =
       Some (mkConversation (isOpen st) (messages st ++ [userMessage; botMessage])
                            [] false)) ∧
  (onMessage = Throws →
     timers w1 = timers w ∧
     ∀ k, instances (advance k w1) !! inst = Some sent).
Proof.
  intros Hreach Hst Hdraft Hty userMessage botMessage sent w1.
  pose proof (reachable_idle w inst st Hreach Hst Hty) as Hidle.
  destruct (send_state onMessage inst w st Hst Hdraft Hty) as (Hi & _ & Hn & Htr).
  fold w1 in Hi, Hn, Htr.
  assert (instances w1 !! inst = Some sent) as H1.
  { rewrite Hi. apply lookup_insert_eq. }
  split; [done|]. split; [done|]. split; [done|]. split.
  - intros Hsink.
    pose proof (send_pending onMessage inst w st Hst Hdraft Hty Hsink Hidle) as Hp.
    fold w1 in Hp.
    assert (∀ k, (k < 1000)%nat →
              pendingReplies inst (advance k w1) =
                [mkTimer (nextTimer w) (now w + 1000) None
                         (BotReply inst (length (messages st) + 2))] ∧
              instances (advance k w1) !! inst = instances w1 !! inst) as Hwait.
    { intros k Hk. apply advance_waiting; [done|]. cbn [due]. lia. }
    split.
    + intros k Hk. destruct (Hwait k Hk) as [_ ->]. done.
    + destruct (Hwait 999%nat) as [Hp' Hi']; [lia|].
      change 1000%nat with (999 + 1)%nat. rewrite advance_add.
      change (advance 1 (advance 999 w1)) with (tick (advance 999 w1)).
      destruct (tick_reply inst _ (length (messages st) + 2) (advance 999 w1) Hp')
        as (_ & _ & ->); [cbn [due]; rewrite advance_now; lia | done | done |].
      rewrite Hi', H1, advance_now, Hn. change (N.of_nat 999) with 999.
      unfold replied, sent. cbn [fmap option_fmap option_map isOpen messages inputValue].
      rewrite <- app_assoc. subst botMessage. do 6 f_equal. lia.
  - intros ->. destruct (send_threw inst w) as [Ht _]. fold w1 in Ht. split; [done|].
    intros k. destruct (advance_idle inst k w1) as [_ ->]; [|done].
    unfold pendingReplies. by rewrite Ht.
Qed.

Lemma C5_send_then_reply_witness :
  let w := updateDraft 0 (js "  Hello ")
             (toggleChat 0 (fst (mountVeeyaa (freshPage NoHandler (js "Home") 5000)))) in
  instances (advance 1000 (handleSendMessage Returns 0 w)) !! 0%nat =
    Some (mkConversation true
            [mkMessage 1 welcomeText bot 5000;
             mkMessage 2 (js "Hello") user 5000;
             mkMessage 3 botText bot 6000] [] false) ∧
  trace (handleSendMessage Returns 0 w) = [OnMessage (js "Hello")].
Proof.
  intros w.
  pose proof (C5_send_then_reply Returns 0%nat w
                (mkConversation true [mkMessage 1 welcomeText bot 5000] (js "  Hello ") false))
    as H.
  destruct H as (_ & _ & Htr & Hr & _).
  - exists NoHandler, (js "Home"), 5000.
    eapply rtc_l; [apply step_mount|].
    eapply rtc_l; [apply (step_toggle 0)|].
    eapply rtc_l; [apply (step_draft 0 (js "  Hello "))|]. apply rtc_refl.
  - by vm_compute.
  - by vm_compute.
  - done.
  - split; [apply Hr; done | exact Htr].
Defined.

(* ===================================================================== *)
(** * Teardown of the engine *)
(* ===================================================================== *)

(** C6 (as stated) fails: the instance that sent "Hello" from its open
    panel is unmounted 400 ms later; the reply timer is still in the queue
    after the unmount, and 600 ms later the event loop runs its callback. *)
Lemma C6_teardown_cancels_counterexample :
  pendingReplies 0 tornDown = [mkTimer 1 1000 None (BotReply 0 3)] ∧
  mkTimer 1 1000 None (BotReply 0 3) ∈ dueNow (advance 599 tornDown) ∧
  (TimerFired 1 ∉ trace tornDown) ∧
  (TimerFired 1 ∈ trace (advance 600 tornDown)) ∧
  ¬ (pendingReplies 0 tornDown = [] ∧
     ∀ n, TimerFired 1 ∉ trace (advance n tornDown)).
Proof.
  assert (pendingReplies 0 tornDown = [mkTimer 1 1000 None (BotReply 0 3)]) as Hp
    by by vm_compute.
  assert (dueNow (advance 599 tornDown) = [mkTimer 1 1000 None (BotReply 0 3)]) as Hd
    by by vm_compute.
  assert (trace tornDown = [OnMessage (js "Hello")]) as Ht by by vm_compute.
  assert (trace (advance 600 tornDown) = [OnMessage (js "Hello"); TimerFired 1]) as Ht'
    by by vm_compute.
  split; [done|]. split; [rewrite Hd; apply list_elem_of_here|].
  split; [rewrite Ht; by intros [?|?%elem_of_nil]%elem_of_cons|].
  split; [rewrite Ht'; apply list_elem_of_further, list_elem_of_here|].
  intros [H _]. by rewrite Hp in H.
Qed.

(** C6 (as the code has it). The component registers no cleanup for the
    reply timer: on every page of a process, when the instance is
    unmounted [k] < 1000 ms after a [send()] that started the delay (the
    guard passed and the sink, if any, returned), the timer stays in the
    queue, the event loop runs its callback when the 1000 ms have passed,
    and the timer then leaves the queue; the unmounted instance has no
    state at any later time, so the callback's two state updates are
    dropped. *)
Theorem C6_teardown_leaves_timer (onMessage : HostFn) (inst : nat) (w : Page)
    (st : ConversationState) (k : nat) :
  reachable w →
  instances w !! inst = Some st →
  trim (inputValue st) ≠ [] →
  isTyping st = false →
  onMessage ≠ Throws →
  (k < 1000)%nat →
  let T := mkTimer (nextTimer w) (now w + 1000) None
                   (BotReply inst (length (messages st) + 2)) in
  let w2 := unmountVeeyaa inst (advance k (handleSendMessage onMessage inst w)) in
  pendingReplies inst w2 = [T] ∧
  T ∈ dueNow (advance (999 - k) w2) ∧
  TimerFired (nextTimer w) ∈ trace (advance (1000 - k) w2) ∧
  pendingReplies inst (advance (1000 - k) w2) = [] ∧
  ∀ n, instances (advance n w2) !! inst = None.
Proof.
  intros Hreach Hst Hdraft Hty Hsink Hk T w2.
  pose proof (reachable_idle w inst st Hreach Hst Hty) as Hidle.
  destruct (send_result onMessage inst w st Hst Hdraft Hty Hsink) as (_ & _ & Hn & _).
  pose proof (send_pending onMessage inst w st Hst Hdraft Hty Hsink Hidle) as Hp.
  destruct (advance_waiting inst k T _ Hp) as [Hpk _];
    [unfold T; cbn [due]; rewrite Hn; lia|].
  assert (pendingReplies inst w2 = [T]) as Hp2 by exact Hpk.
  assert (now w2 = now w + N.of_nat k) as Hn2.
  { subst w2. simpl. by rewrite advance_now, Hn. }
  destruct (advance_waiting inst (999 - k) T w2 Hp2) as [Hp3 _];
    [unfold T; cbn [due]; rewrite Hn2; lia|].
  destruct (tick_reply inst T (length (messages st) + 2) (advance (999 - k) w2) Hp3)
    as (Hdue & Hgone & _);
    [unfold T; cbn [due]; rewrite advance_now, Hn2; lia | done | done |].
  assert (advance (1000 - k) w2 = tick (advance (999 - k) w2)) as Hlast.
  { replace (1000 - k)%nat with ((999 - k) + 1)%nat by lia. by rewrite advance_add. }
  split; [done|]. split; [done|]. rewrite Hlast.
  split; [apply (tick_fired _ T Hdue)|]. split; [done|].
  intros n. apply advance_unmounted. subst w2. simpl. apply lookup_delete_eq.
Qed.

Lemma C6_teardown_leaves_timer_witness :
  pendingReplies 0 (unmountVeeyaa 0 (advance 400 (handleSendMessage Returns 0 draftPage))) =
    [mkTimer 1 1000 None (BotReply 0 3)] ∧
  ∀ n, instances (advance n tornDown) !! 0%nat = None.
Proof.
  pose proof (C6_teardown_leaves_timer Returns 0%nat draftPage
                (mkConversation true [mkMessage 1 welcomeText bot 0] (js "Hello") false)
                400%nat) as H.
  destruct H as (Hp & _ & _ & _ & Hgone).
  - apply draftPage_reachable.
  - by vm_compute.
  - by vm_compute.
  - done.
  - done.
  - lia.
  - split; [exact Hp | exact Hgone].
Defined.

(* ===================================================================== *)
(** * The title watchdog *)
(* ===================================================================== *)

Lemma count_app f (l k : list event) : count f (l ++ k) = (count f l + count f k)%nat.
Proof. unfold count. by rewrite filter_app, length_app. Qed.

Lemma titleWrites_emit es w :
  titleWrites (emit es w) = (titleWrites w + count isTitleWrite es)%nat.
Proof. unfold titleWrites. simpl. apply count_app. Qed.

(** Evaluate [count] on the events a callback emitted. *)
Ltac count_emitted :=
  repeat match goal with
         | |- context [count ?f (?e :: ?es)] =>
             let n := eval vm_compute in (count f (e :: es)) in
             change (count f (e :: es)) with n
         end.

Lemma titleWrites_setTawkAPI a w : titleWrites (setTawkAPI a w) = titleWrites w.
Proof. done. Qed.

Lemma titleWrites_setTitle t w : titleWrites (setTitle t w) = titleWrites w.
Proof. done. Qed.

Ltac title_writes :=
  repeat first [ rewrite titleWrites_emit
               | rewrite titleWrites_setTitle
               | rewrite titleWrites_setTawkAPI ];
  count_emitted.

(** Callbacks other than the watchdog's leave the title alone. *)
Lemma runCallback_title_other cb w :
  (∀ b, cb ≠ TitleCheck b) →
  title (runCallback cb w) = title w ∧
  titleWrites (runCallback cb w) = titleWrites w.
Proof.
  intros Hcb. destruct cb as [hide tp | orig | i bid]; simpl.
  - destruct hide.
    + unfold hideChatbot. destruct (Tawk_API w) as [api|]; [|done].
      destruct (hideWidget _), (setAttributes _), (_ && _);
        cbn [tryWarn andThen callIfPresent];
        title_writes; split; done || lia.
    + unfold showChatbot. destruct (Tawk_API w) as [api|]; [|done].
      destruct (showWidget _), (setAttributes _);
        cbn [tryWarn andThen callIfPresent];
        title_writes; split; done || lia.
  - by destruct (Hcb orig).
  - unfold botReply. by destruct (instances w !! i).
Qed.

Lemma fire_title_other w tm :
  isTitleCheck tm = false →
  title (fire w tm) = title w ∧ titleWrites (fire w tm) = titleWrites w.
Proof.
  intros H. unfold fire.
  destruct (runCallback_title_other (callback tm) (emit [TimerFired (tid tm)] w))
    as [-> ->].
  - intros b Hb. unfold isTitleCheck in H. by rewrite Hb in H.
  - split; [done|]. title_writes. lia.
Qed.

(** The watchdog's callback: a title of the unread shape that differs
    from the baseline is replaced by the baseline, any other title stays. *)
Lemma fire_title_check w tm b :
  callback tm = TitleCheck b →
  title (fire w tm) =
    (if bool_decide (title w ≠ b) && unreadShape (title w) then b else title w) ∧
  titleWrites (fire w tm) =
    (if bool_decide (title w ≠ b) && unreadShape (title w)
     then S (titleWrites w) else titleWrites w).
Proof.
  intros H. unfold fire. rewrite H. simpl. unfold titleCheck. simpl.
  case_bool_decide; simpl.
  - destruct (unreadShape (title w)); simpl.
    + split; [done|]. title_writes. lia.
    + split; [done|]. title_writes. lia.
  - split; [done|]. title_writes. lia.
Qed.

Lemma foldl_fire_title_none l w :
  Forall (λ tm, isTitleCheck tm = false) l →
  title (foldl fire w l) = title w ∧ titleWrites (foldl fire w l) = titleWrites w.
Proof.
  intros H. revert w. induction H as [|tm l Htm _ IH]; intros w; simpl; [done|].
  destruct (IH (fire w tm)) as [-> ->]. by apply fire_title_other.
Qed.

Section Watchdog.
Variable id : positive.
Variable b : jsstring.

Let mine (tm : Timer) : Prop :=
  isTitleCheck tm = true → tid tm = id ∧ callback tm = TitleCheck b.

(** At the baseline nothing is written. *)
Lemma foldl_fire_title_keep l w :
  Forall mine l → title w = b →
  title (foldl fire w l) = b ∧ titleWrites (foldl fire w l) = titleWrites w.
Proof using Type.
  intros H. revert w. induction H as [|tm l Htm _ IH]; intros w Hw; simpl; [done|].
  destruct (isTitleCheck tm) eqn:E.
  - destruct (Htm E) as [_ Hcb].
    destruct (fire_title_check w tm b Hcb) as [Ht Hc].
    rewrite Hw in Ht, Hc.
    rewrite bool_decide_eq_false_2 in Ht, Hc by (intros Hne; by apply Hne).
    simpl in Ht, Hc. destruct (IH (fire w tm) Ht) as [-> ->]. done.
  - destruct (fire_title_other w tm E) as [Ht Hc].
    destruct (IH (fire w tm)) as [-> ->]; [congruence | done].
Qed.

(** A title [t'] of the unread shape is replaced by the baseline as soon
    as the watchdog's callback is among those that run. *)
Lemma foldl_fire_title_revert l w t' :
  Forall mine l → unreadShape t' = true →
  title w = b ∨ title w = t' →
  (title (foldl fire w l) = b ∨ title (foldl fire w l) = t') ∧
  ((∃ tm, tm ∈ l ∧ callback tm = TitleCheck b) → title (foldl fire w l) = b).
Proof using Type.
  intros H Hshape. revert w. induction H as [|tm l Htm Hl IH]; intros w Hw; simpl.
  - split; [done|]. intros (tm & Hin & _). by apply elem_of_nil in Hin.
  - destruct (isTitleCheck tm) eqn:E.
    + destruct (Htm E) as [_ Hcb].
      destruct (fire_title_check w tm b Hcb) as [Ht _].
      assert (title (fire w tm) = b) as Hb.
      { rewrite Ht. destruct Hw as [Hw | Hw]; rewrite Hw.
        - by rewrite bool_decide_eq_false_2 by (intros Hne; by apply Hne).
        - rewrite Hshape. destruct (decide (t' = b)) as [-> | Hne].
          + destruct (bool_decide (b ≠ b)); reflexivity.
          + by rewrite bool_decide_eq_true_2. }
      split.
      * apply IH. by left.
      * intros _. by destruct (foldl_fire_title_keep l (fire w tm) Hl Hb).
    + destruct (fire_title_other w tm E) as [Ht _].
      destruct (IH (fire w tm)) as [H1 H2]; [by rewrite Ht|].
      split; [done|]. intros (tm' & Hin & Hcb).
      apply elem_of_cons in Hin as [-> | Hin].
      * unfold isTitleCheck in E. by rewrite Hcb in E.
      * apply H2. eauto.
Qed.

Lemma rearm_mine t tm tm' : rearm t tm = Some tm' → mine tm → mine tm'.
Proof using Type.
  unfold rearm, mine, isTitleCheck.
  destruct (isDue t tm); [|by intros [= <-]].
  destruct (interval tm); [by intros [= <-] | done].
Qed.

Lemma onlyWatchdog_tick w : onlyWatchdog id b w → onlyWatchdog id b (tick w).
Proof using Type.
  unfold onlyWatchdog. rewrite tick_timers. rewrite !Forall_forall.
  intros H tm' (tm & Hin & Hre)%list_elem_of_omap.
  eapply rearm_mine; [done | exact (H tm Hin)].
Qed.

Lemma onlyWatchdog_due w : onlyWatchdog id b w → Forall mine (dueNow w).
Proof using Type.
  unfold onlyWatchdog. rewrite !Forall_forall.
  intros H tm [Hin _]%elem_of_dueNow. exact (H tm Hin).
Qed.

Lemma onlyWatchdog_advance n w : onlyWatchdog id b w → onlyWatchdog id b (advance n w).
Proof using Type.
  revert w. induction n as [|n IH]; intros w H; simpl; [done|].
  by apply IH, onlyWatchdog_tick.
Qed.

Lemma tick_title_keep w :
  onlyWatchdog id b w → title w = b →
  title (tick w) = b ∧ titleWrites (tick w) = titleWrites w.
Proof using Type.
  intros H Hw. unfold tick.
  by apply (foldl_fire_title_keep (dueNow w)
              (setTimers _ _ (setNow _ w)) (onlyWatchdog_due w H)).
Qed.

Lemma advance_title_keep n w :
  onlyWatchdog id b w → title w = b →
  title (advance n w) = b ∧ titleWrites (advance n w) = titleWrites w.
Proof using Type.
  revert w. induction n as [|n IH]; intros w H Hw; simpl; [done|].
  destruct (tick_title_keep w H Hw) as [Ht Hc].
  destruct (IH (tick w) (onlyWatchdog_tick w H) Ht) as [-> ->]. done.
Qed.

(** Within [n] ms of the title taking the unread shape, where [n] bounds
    the time to the watchdog's next run, the title is the baseline. *)
Lemma advance_title_revert n w t' :
  onlyWatchdog id b w → unreadShape t' = true →
  title w = b ∨ title w = t' →
  (∃ tm, tm ∈ timers w ∧ callback tm = TitleCheck b ∧
         now w < due tm ≤ now w + N.of_nat n) →
  title (advance n w) = b.
Proof using Type.
  revert w. induction n as [|n IH]; intros w H Hshape Hw (tm & Hin & Hcb & Hlo & Hhi).
  - simpl in Hhi. lia.
  - simpl.
    destruct (foldl_fire_title_revert (dueNow w)
                (setTimers (omap (rearm (now w + 1)) (timers w)) (nextTimer w)
                           (setNow (now w + 1) w)) t'
                (onlyWatchdog_due w H) Hshape Hw) as [Hor Hdue].
    fold (tick w) in Hor, Hdue.
    destruct (decide (due tm ≤ now w + 1)) as [Hd | Hd].
    + apply advance_title_keep; [by apply onlyWatchdog_tick|].
      apply Hdue. exists tm. split; [|done]. by apply elem_of_dueNow.
    + apply IH; [by apply onlyWatchdog_tick | done | done |].
      exists tm. split; [|split; [done|]].
      * rewrite tick_timers. apply list_elem_of_omap. exists tm. split; [done|].
        unfold rearm, isDue. by rewrite (proj2 (N.leb_gt _ _)) by lia.
      * rewrite tick_now. lia.
Qed.

Lemma armed_tick w : armed id b w → armed id b (tick w).
Proof using Type.
  intros (tm & Hin & Hid & Hcb & Hint & Hlo & Hhi).
  destruct (decide (due tm ≤ now w + 1)) as [Hd | Hd].
  - exists (mkTimer (tid tm) (due tm + 500) (Some 500) (callback tm)).
    rewrite tick_timers, tick_now. simpl. repeat split; try done; try lia.
    apply list_elem_of_omap. exists tm. split; [done|].
    unfold rearm, isDue. by rewrite (proj2 (N.leb_le _ _)), Hint by lia.
  - exists tm. rewrite tick_timers, tick_now. repeat split; try done; try lia.
    apply list_elem_of_omap. exists tm. split; [done|].
    unfold rearm, isDue. by rewrite (proj2 (N.leb_gt _ _)) by lia.
Qed.

Lemma armed_advance n w : armed id b w → armed id b (advance n w).
Proof using Type.
  revert w. induction n as [|n IH]; intros w H; simpl; [done|].
  by apply IH, armed_tick.
Qed.

(** The cleanup releases the watchdog's timer. *)
Lemma cleanup_noWatchdog w : onlyWatchdog id b w → noWatchdog (cleanup (Some id) w).
Proof using Type.
  unfold onlyWatchdog, noWatchdog. simpl. rewrite !Forall_forall.
  intros H tm [Hne Hin]%list_elem_of_filter.
  destruct (isTitleCheck tm) eqn:E; [|done].
  by destruct (H tm Hin E) as [? _].
Qed.
End Watchdog.

(** Without a watchdog in the queue nothing writes the title. *)
Lemma noWatchdog_tick w :
  noWatchdog w →
  noWatchdog (tick w) ∧ title (tick w) = title w ∧ titleWrites (tick w) = titleWrites w.
Proof.
  intros H. split.
  - unfold noWatchdog in *. rewrite tick_timers. rewrite !Forall_forall in *.
    intros tm' (tm & Hin & Hre)%list_elem_of_omap.
    unfold isTitleCheck. rewrite (rearm_callback _ _ _ Hre). by apply H.
  - unfold tick.
    apply (foldl_fire_title_none (dueNow w) (setTimers _ _ (setNow _ w))).
    unfold noWatchdog in H. rewrite !Forall_forall in *.
    intros tm [Hin _]%elem_of_dueNow. by apply H.
Qed.

Lemma noWatchdog_advance n w :
  noWatchdog w →
  title (advance n w) = title w ∧ titleWrites (advance n w) = titleWrites w.
Proof.
  revert w. induction n as [|n IH]; intros w H; simpl; [done|].
  destruct (noWatchdog_tick w H) as (H' & Ht & Hc).
  destruct (IH (tick w) H') as [-> ->]. done.
Qed.

(** On a hidden route with title protection the effect arms one watchdog,
    with the current title for baseline. *)
Lemma effect_arms (p : Props) (pathname : jsstring) (w : Page) :
  enableTitleProtection p = true →
  shouldHide (hideOnRoutes p) pathname = true →
  noWatchdog w →
  ∃ id, snd (effect p pathname w) = Some id ∧
        onlyWatchdog id (title w) (fst (effect p pathname w)) ∧
        armed id (title w) (fst (effect p pathname w)) ∧
        title (fst (effect p pathname w)) = title w ∧
        titleWrites (fst (effect p pathname w)) = titleWrites w.
Proof.
  intros Hp Hh Hno. unfold effect. rewrite Hp, Hh. cbn [andb].
  set (w1 := if loadNeeded w then _ else _).
  assert (title w1 = title w ∧ now w1 = now w ∧ titleWrites w1 = titleWrites w ∧
          noWatchdog w1) as (Ht & Hn & Hc & Hno1).
  { subst w1. destruct (loadNeeded w).
    - destruct (enableErrorHandling p);
        (split; [reflexivity|]; split; [reflexivity|]; split; [|exact Hno]);
        unfold titleWrites, setupErrorHandling;
        cbn [trace emit setHead setLoadStart setTawkAPI setListeners setOnerror];
        rewrite !count_app; count_emitted; lia.
    - cbn. repeat split; try done.
      unfold noWatchdog in *. cbn. apply Forall_app. split; [done|].
      by repeat constructor. }
  exists (nextTimer w1). cbn. rewrite Ht, Hn. repeat split; try done.
  - unfold onlyWatchdog. cbn. apply Forall_app. split.
    + unfold noWatchdog in Hno1. eapply Forall_impl; [exact Hno1|].
      intros tm H1 H2. congruence.
    + by repeat constructor.
  - eexists. split; [apply elem_of_app; right; apply list_elem_of_here|].
    cbn. repeat split; try done; lia.
Qed.

(** With protection disabled or the route shown the effect arms none. *)
Lemma effect_no_watchdog (p : Props) (pathname : jsstring) (w : Page) :
  enableTitleProtection p && shouldHide (hideOnRoutes p) pathname = false →
  noWatchdog w →
  snd (effect p pathname w) = None ∧ noWatchdog (fst (effect p pathname w)).
Proof.
  intros Hoff Hno. unfold effect. rewrite Hoff. cbn. split; [done|].
  destruct (loadNeeded w).
  - by destruct (enableErrorHandling p).
  - unfold noWatchdog in *. cbn. apply Forall_app. split; [done|].
    by repeat constructor.
Qed.

Lemma unreadShape_spec (t : jsstring) :
  unreadShape t = true ↔ contains t (js "new message") ∨ hasCount t.
Proof.
  unfold unreadShape. by rewrite orb_true_iff, includes_contains, matchesCount_spec.
Qed.

(** C9. On a hidden route with title protection enabled the effect takes
    the current title for baseline (for instance "Home") and from then on:
    a title that differs from the baseline and has the unread shape (it
    contains "new message" or a count in parentheses) is back at the
    baseline 500 ms after it was set; while the title is the
    baseline nothing is written to it; and once the cleanup has run
    (unmount), also when the effect then runs again with protection
    disabled or on a shown route, no watchdog is left in the queue and a
    title set afterwards stays, with nothing written to it. *)
Theorem C9_title_watchdog (p : Props) (pathname : jsstring) (w : Page) :
  enableTitleProtection p = true →
  shouldHide (hideOnRoutes p) pathname = true →
  noWatchdog w →
  (∀ (k : nat) (t' : jsstring),
     t' ≠ title w → contains t' (js "new message") ∨ hasCount t' →
     title (advance 500 (setTitle t' (advance k (fst (effect p pathname w))))) = title w) ∧
  (∀ k n : nat,
     title (advance n (setTitle (title w) (advance k (fst (effect p pathname w))))) = title w ∧
     titleWrites (advance n (setTitle (title w) (advance k (fst (effect p pathname w)))))
       = titleWrites w) ∧
  (∀ (k n : nat) (t : jsstring),
     noWatchdog (cleanup (snd (effect p pathname w)) (advance k (fst (effect p pathname w)))) ∧
     title (advance n (setTitle t
              (cleanup (snd (effect p pathname w)) (advance k (fst (effect p pathname w))))))
       = t ∧
     titleWrites (advance n (setTitle t
              (cleanup (snd (effect p pathname w)) (advance k (fst (effect p pathname w))))))
       = titleWrites w) ∧
  (∀ (k n : nat) (t : jsstring) (p' : Props) (pathname' : jsstring),
     enableTitleProtection p' && shouldHide (hideOnRoutes p') pathname' = false →
     snd (effect p' pathname'
            (cleanup (snd (effect p pathname w)) (advance k (fst (effect p pathname w)))))
       = None ∧
     title (advance n (setTitle t (fst (effect p' pathname'
              (cleanup (snd (effect p pathname w)) (advance k (fst (effect p pathname w))))))))
       = t).
Proof.
  intros Hp Hh Hno.
  destruct (effect_arms p pathname w Hp Hh Hno) as (id & Hc & Honly & Harmed & Ht & Hw).
  rewrite Hc. set (w1 := fst (effect p pathname w)) in *.
  assert (∀ k, title (advance k w1) = title w ∧ titleWrites (advance k w1) = titleWrites w)
    as Hkeep.
  { intros k. destruct (advance_title_keep id (title w) k w1 Honly Ht) as [-> ->]. done. }
  assert (∀ k, noWatchdog (cleanup (Some id) (advance k w1))) as Hclean.
  { intros k. eapply cleanup_noWatchdog, onlyWatchdog_advance, Honly. }
  split; [|split; [|split]].
  - intros k t' Hne Hshape%unreadShape_spec.
    destruct (armed_advance id (title w) k w1 Harmed)
      as (tm & Hin & _ & Hcb & _ & Hlo & Hhi).
    apply (advance_title_revert id (title w) 500 (setTitle t' (advance k w1)) t').
    + apply (onlyWatchdog_advance id (title w) k w1 Honly).
    + done.
    + by right.
    + exists tm. change (N.of_nat 500) with 500.
      repeat split; first [done | cbn [now timers setTitle]; lia].
  - intros k n.
    destruct (advance_title_keep id (title w) n (setTitle (title w) (advance k w1)))
      as [-> ->]; [apply (onlyWatchdog_advance id (title w) k w1 Honly) | done |].
    split; [done|]. apply (Hkeep k).
  - intros k n t. split; [apply Hclean|].
    destruct (noWatchdog_advance n (setTitle t (cleanup (Some id) (advance k w1))))
      as [-> ->]; [apply Hclean|].
    split; [done|]. apply (Hkeep k).
  - intros k n t p' pathname' Hoff.
    destruct (effect_no_watchdog p' pathname' _ Hoff (Hclean k)) as [Hnone Hno'].
    split; [done|].
    by destruct (noWatchdog_advance n
                   (setTitle t (fst (effect p' pathname' (cleanup (Some id) (advance k w1)))))
                   Hno') as [-> _].
Qed.

Lemma C9_title_watchdog_witness :
  let p := mkProps (js "prop1") (js "w1") [js "/customer"] true true NotSupplied NotSupplied in
  let w1 := fst (effect p (js "/customer/orders") (freshPage NoHandler (js "Home") 0)) in
  title (advance 500 (setTitle (js "Home (2)") (advance 1234 w1))) = js "Home".
Proof.
  intros p w1.
  pose proof (C9_title_watchdog p (js "/customer/orders") (freshPage NoHandler (js "Home") 0))
    as H.
  destruct H as (Hrevert & _).
  - done.
  - by vm_compute.
  - constructor.
  - apply (Hrevert 1234%nat (js "Home (2)")).
    + by vm_compute.
    + apply unreadShape_spec. by vm_compute.
Defined.

(* ===================================================================== *)
(** * Reconciliation of the widget's visibility *)
(* ===================================================================== *)

Lemma targetOf_assignStatus h a :
  targetOf (assignStatus h a) =
    mkTarget (hideWidget (targetOf a)) (showWidget (targetOf a))
             (setAttributes (targetOf a)) (Some h).
Proof. induction a as [o|t IH]; simpl; [done | exact IH]. Qed.








(** X3. However many wrappers of [setupErrorHandling] are stacked on a
    handler, they behave as one: an error of the deny-list is reported as
    handled with a single warning, any other error gets what the original
    handler gives. *)
Theorem X3_stacked_wrappers (n : nat) (h : Handler) (a : ErrorArgs) :
  callHandler (wrapped (S n) h) a = callHandler (TawkHandler h) a.
Proof.
  induction n as [|n IH]; [done|].
  change (wrapped (S (S n)) h) with (TawkHandler (wrapped (S n) h)).
  simpl. simpl in IH. destruct (deniedError (msg a) (url a)); [done | exact IH].
Qed.

(** X4. The load sequence keeps an API object the host page had already
    put in [window.Tawk_API]: the entry points and the status callback read
    from it afterwards are the host's, behind one more proxy when error
    handling is enabled and none otherwise; with no such object it starts
    from the empty object. *)
Theorem X4_load_keeps_host_object (p : Props) (pathname : jsstring) (w : Page) :
  loadNeeded w = true →
  ∃ api', Tawk_API (fst (effect p pathname w)) = Some api' ∧
    targetOf api' = targetOf (default (Plain emptyObject) (Tawk_API w)) ∧
    proxyDepth api' =
      (proxyDepth (default (Plain emptyObject) (Tawk_API w)) +
       (if enableErrorHandling p then 1 else 0))%nat.
Proof.
  intros Hl. unfold effect. rewrite Hl.
  destruct (enableErrorHandling p), (enableTitleProtection p && _); cbn;
    eexists; (split; [reflexivity|]); cbn; split; try done; lia.
Qed.

Lemma X4_load_keeps_host_object_witness :
  ∃ api', Tawk_API (fst (effect (mkProps (js "p") (js "w") [] true true NotSupplied NotSupplied) (js "/")
                           (setTawkAPI (Some (Plain (mkTarget Missing Missing Missing
                                                        (Some ProviderStatus))))
                                       (freshPage NoHandler (js "Home") 0)))) = Some api' ∧
          onStatusChange (targetOf api') = Some ProviderStatus.
Proof.
  destruct (X4_load_keeps_host_object
              (mkProps (js "p") (js "w") [] true true NotSupplied NotSupplied) (js "/")
              (setTawkAPI (Some (Plain (mkTarget Missing Missing Missing (Some ProviderStatus))))
                          (freshPage NoHandler (js "Home") 0)) eq_refl)
    as (api' & H1 & H2 & _).
  exists api'. split; [exact H1 | by rewrite H2].
Defined.

(* ===================================================================== *)
(** * Settle delays *)
(* ===================================================================== *)

Lemma widgetLog_emit es w :
  widgetLog (emit es w) = widgetLog w ++ filter (λ e, isWidgetEvent e = true) es.
Proof. unfold widgetLog. simpl. apply filter_app. Qed.

















(* ===================================================================== *)
(** * Before the provider's script has run *)
(* ===================================================================== *)

Lemma apiCalls_emit es w :
  apiCalls (emit es w) = apiCalls w ++ filter (λ e, isApiCall e = true) es.
Proof. unfold apiCalls. simpl. apply filter_app. Qed.

Lemma apiCalls_emit_none es w :
  Forall (λ e, isApiCall e = false) es → apiCalls (emit es w) = apiCalls w.
Proof. intros H. by rewrite apiCalls_emit, (filter_none _ _ H), app_nil_r. Qed.

Lemma runCallback_unpopulated cb w :
  unpopulated w →
  unpopulated (runCallback cb w) ∧ apiCalls (runCallback cb w) = apiCalls w.
Proof.
  unfold unpopulated. intros H. destruct cb as [hide tp | orig | inst botId]; simpl.
  - destruct hide.
    + unfold hideChatbot. destruct (Tawk_API w) as [api|] eqn:E; [|by rewrite E].
      destruct H as (Hh & Hs & Ha). rewrite Hh, Ha.
      cbn [tryWarn andThen callIfPresent]. destruct (_ && _); simpl.
      * by rewrite !targetOf_assignStatus.
      * by rewrite E.
    + unfold showChatbot. destruct (Tawk_API w) as [api|] eqn:E; [|by rewrite E].
      destruct H as (Hh & Hs & Ha). rewrite Hs, Ha.
      cbn [tryWarn andThen callIfPresent]. by rewrite E.
  - unfold titleCheck. case_bool_decide; [|done].
    destruct (unreadShape (title w)); [|done]. simpl.
    split; [done|]. apply (apiCalls_emit_none _ (setTitle orig w)). by repeat constructor.
  - unfold botReply. by destruct (instances w !! inst).
Qed.

Lemma foldl_fire_unpopulated l w :
  unpopulated w →
  unpopulated (foldl fire w l) ∧ apiCalls (foldl fire w l) = apiCalls w.
Proof.
  revert w. induction l as [|tm l IH]; intros w H; simpl; [done|].
  assert (unpopulated (fire w tm) ∧ apiCalls (fire w tm) = apiCalls w) as [H1 H2].
  { unfold fire.
    destruct (runCallback_unpopulated (callback tm) (emit [TimerFired (tid tm)] w) H)
      as [H1 ->].
    split; [done|]. apply apiCalls_emit_none. by repeat constructor. }
  destruct (IH _ H1) as [H3 ->]. done.
Qed.

Lemma pageStep_unpopulated w w' :
  unpopulated w → pageStep w w' → apiCalls w' = apiCalls w.
Proof.
  intros H Hstep. destruct Hstep.
  - unfold tick. by destruct (foldl_fire_unpopulated (dueNow w)
                                (setTimers (omap (rearm (now w + 1)) (timers w))
                                           (nextTimer w) (setNow (now w + 1) w)) H).
  - unfold scriptOnload. destruct (script_onLoad s); [done|..];
      apply (apiCalls_emit_none [OnLoad] w); by repeat constructor.
  - unfold scriptOnerror. destruct (supplied (script_onError s));
      rewrite ?apiCalls_emit_none; done || by repeat constructor.
  - destruct (reportError_shape a w) as (es & -> & Hes). apply apiCalls_emit_none.
    eapply Forall_impl; [exact Hes|]. by intros [].
  - unfold reportRejection. apply apiCalls_emit_none.
    unfold runRejectionListeners. apply Forall_concat, Forall_fmap, Forall_true.
    intros ?. unfold compose, rejectionListener.
    destruct (deniedRejection _); by repeat constructor.
  - done.
  - done.
  - unfold effect. destruct (loadNeeded w), (enableErrorHandling p), (_ && _); cbn;
      unfold apiCalls; cbn; rewrite ?filter_app;
      rewrite ?(filter_none isApiCall [_]) by (by repeat constructor);
      by rewrite ?app_nil_r.
  - done.
  - done.
  - done.
  - unfold updateDraft. by destruct (instances w !! inst).
  - unfold handleSendMessage. destruct (instances w !! inst); [|done].
    destruct (_ || _); [done|].
    destruct onMessage; [done|..]; simpl; unfold apiCalls; simpl; rewrite filter_app;
      by rewrite (filter_none isApiCall [_]), app_nil_r by (by repeat constructor).
  - unfold toggleChat. by destruct (instances w !! inst).
  - unfold closeWhenHidden. destruct (instances w !! inst); [|done]. by destruct (_ && _).
Qed.

(** X7. As long as the provider's script has not filled the API object
    with its entry points, no call of the widget API is made, whatever
    happens on the page: the script loading or failing, routes changing,
    settle delays elapsing. *)
Theorem X7_no_call_before_provider (w w' : Page) :
  unpopulated w → rtc beforeProvider w w' → apiCalls w' = apiCalls w.
Proof.
  intros H Hsteps. induction Hsteps as [w | w w1 w2 [Hstep Hun] _ IH]; [done|].
  rewrite (IH Hun). by apply pageStep_unpopulated.
Qed.

Lemma X7_no_call_before_provider_witness :
  let p := mkProps (js "p") (js "w") [js "/customer"] true true Returns Returns in
  let w := freshPage NoHandler (js "Home") 0 in
  apiCalls (tick (fst (effect p (js "/customer") w))) = [].
Proof.
  intros p w.
  apply (X7_no_call_before_provider w (tick (fst (effect p (js "/customer") w)))).
  - done.
  - eapply rtc_l; [split; [apply (step_effect p (js "/customer"))|by vm_compute]|].
    eapply rtc_l; [split; [apply step_tick|by vm_compute]|]. apply rtc_refl.
Defined.

(* ===================================================================== *)
(** * One watchdog per controller *)
(* ===================================================================== *)

Lemma watchdogs_rearm_length t (l : list Timer) :
  Forall (λ tm, isTitleCheck tm = true → interval tm ≠ None) l →
  length (filter (λ tm, isTitleCheck tm = true) (omap (rearm t) l)) =
  length (filter (λ tm, isTitleCheck tm = true) l) ∧
  Forall (λ tm, isTitleCheck tm = true → interval tm ≠ None) (omap (rearm t) l).
Proof.
  induction 1 as [|tm l Htm _ [IH1 IH2]]; [done|].
  rewrite omap_rearm_cons. destruct (isTitleCheck tm) eqn:Etc.
  - specialize (Htm eq_refl). rewrite (filter_cons_True _ tm) by done.
    destruct (rearm t tm) as [tm'|] eqn:E.
    + assert (isTitleCheck tm' = true) as Etc'.
      { unfold isTitleCheck. by rewrite (rearm_callback _ _ _ E). }
      rewrite filter_cons_True by done. split; [cbn [length]; by rewrite IH1|].
      constructor; [|exact IH2]. intros _. revert E. unfold rearm.
      destruct (isDue t tm); [|by intros [= <-]].
      destruct (interval tm); [by intros [= <-] | done].
    + exfalso. revert E. unfold rearm. destruct (isDue t tm); [|done].
      by destruct (interval tm).
  - rewrite (filter_cons_False _ tm) by congruence.
    destruct (rearm t tm) as [tm'|] eqn:E; [|done].
    assert (isTitleCheck tm' = false) as Etc'.
    { unfold isTitleCheck. rewrite (rearm_callback _ _ _ E). exact Etc. }
    rewrite filter_cons_False by congruence. split; [done|].
    constructor; [congruence | exact IH2].
Qed.

Lemma watchdogs_advance k w :
  Forall (λ tm, isTitleCheck tm = true → interval tm ≠ None) (timers w) →
  length (watchdogs (advance k w)) = length (watchdogs w).
Proof.
  revert w. induction k as [|k IH]; intros w H; simpl; [done|].
  destruct (watchdogs_rearm_length (now w + 1) (timers w) H) as [Hl HF].
  rewrite IH; unfold watchdogs; rewrite tick_timers; done.
Qed.

(** X8. A run of the effect arms at most one watchdog: on a page without
    one, it arms exactly one on a hidden route with title protection and
    none otherwise, and the number stays so however much time passes (the
    watchdog is armed again every period, never lost and never doubled). *)
Theorem X8_one_watchdog (p : Props) (pathname : jsstring) (w : Page) (k : nat) :
  noWatchdog w →
  length (watchdogs (advance k (fst (effect p pathname w)))) =
    (if enableTitleProtection p && shouldHide (hideOnRoutes p) pathname then 1 else 0)%nat.
Proof.
  intros Hno.
  assert (watchdogs w = []) as Hw0.
  { unfold watchdogs. apply filter_none. exact Hno. }
  assert (Forall (λ tm, isTitleCheck tm = true → interval tm ≠ None) (timers w)) as HF0.
  { eapply Forall_impl; [exact Hno|]. intros tm H1 H2. congruence. }
  rewrite watchdogs_advance.
  - unfold watchdogs in *. unfold effect.
    destruct (loadNeeded w), (enableErrorHandling p), (_ && _); cbn;
      rewrite ?filter_app, Hw0;
      rewrite ?(filter_none isTitleCheck [mkTimer _ _ _ (Reconcile _ _)])
        by (by repeat constructor);
      rewrite ?(filter_cons_True _ (mkTimer _ _ _ (TitleCheck _))) by done;
      done.
  - unfold effect.
    destruct (loadNeeded w), (enableErrorHandling p), (_ && _); cbn;
      rewrite ?Forall_app; repeat split; try done; by repeat constructor.
Qed.

Lemma X8_one_watchdog_witness :
  length (watchdogs (advance 1700
            (fst (effect (mkProps (js "p") (js "w") [js "/customer"] true true NotSupplied NotSupplied)
                         (js "/customer/7") (freshPage NoHandler (js "Home") 0))))) = 1%nat.
Proof.
  apply (X8_one_watchdog (mkProps (js "p") (js "w") [js "/customer"] true true NotSupplied NotSupplied)
                         (js "/customer/7") (freshPage NoHandler (js "Home") 0) 1700).
  constructor.
Defined.

(* ===================================================================== *)
(** * The proxy around the API object *)
(* ===================================================================== *)

Lemma trapMatches_spec message : trapMatches message = true ↔ onTrapList message.
Proof.
  unfold trapMatches, onTrapList. destruct message as [m|].
  - rewrite andb_true_iff, orb_true_iff, !includes_contains. split.
    + intros [_ H]. eauto.
    + intros (m' & [= <-] & H). split; [|done].
      destruct H as [H|H]; eapply contains_truthy; try exact H; done.
  - split; [done|]. by intros (m & ? & _).
Qed.

(** X9. A property read through the proxy (one layer or several): a value
    comes back as it is, with no warning; a read that throws an error whose
    message contains the localization-library marker or the internal
    property-access marker gives the no-op function and one warning naming
    the property; any other thrown error, one that only carries the
    provider's name included, is thrown on unchanged. *)
Theorem X9_proxy_get {V : Type} (a : TawkObject) (prop : jsstring) :
  (1 ≤ proxyDepth a)%nat →
  (∀ v : PropValue V, getThrough a prop (ReadValue v) = (ReadValue v, [])) ∧
  (∀ message, onTrapList message →
     getThrough (V:=V) a prop (ReadThrows message) =
       (ReadValue NoopFunction,
        [ConsoleWarn (js "TawkChatbot: Tawk.to API error prevented:") (Some prop)])) ∧
  (∀ message, ¬ onTrapList message →
     getThrough (V:=V) a prop (ReadThrows message) = (ReadThrows message, [])).
Proof.
  intros Hd. split; [|split].
  - intros v. clear Hd. induction a as [o|t IH]; simpl; [done|]. by rewrite IH.
  - intros message Hm%trapMatches_spec.
    induction a as [o|t IH]; simpl in *; [lia|].
    destruct t as [o|t'].
    + simpl. by rewrite Hm.
    + rewrite IH by (simpl; lia). done.
  - intros message Hm.
    assert (trapMatches message = false) as Hf.
    { destruct (trapMatches message) eqn:E; [|done]. by apply trapMatches_spec in E. }
    clear Hd. induction a as [o|t IH]; simpl; [done|]. rewrite IH. simpl. by rewrite Hf.
Qed.

Lemma X9_proxy_get_witness :
  getThrough (V:=nat) (ProxyOf (ProxyOf (Plain emptyObject))) (js "hideWidget")
             (ReadThrows (Some (js "Tawk is not defined")))
  = (ReadThrows (Some (js "Tawk is not defined")), []).
Proof.
  destruct (X9_proxy_get (V:=nat) (ProxyOf (ProxyOf (Plain emptyObject))) (js "hideWidget"))
    as (_ & _ & H).
  - simpl. lia.
  - apply H. intros Hm%trapMatches_spec. by vm_compute in Hm.
Defined.

(* ===================================================================== *)
(** * The dispatcher *)
(* ===================================================================== *)

Lemma truthyProp_spec o : Dispatcher.truthyProp o = true ↔ ∃ s, o = Some s ∧ s ≠ [].
Proof.
  destruct o as [[|c s]|]; simpl; split; try done.
  - by intros (s & [= <-] & H).
  - eauto.
  - by intros (s & ? & _).
Qed.

(** X10. The dispatcher mounts the Tawk controller exactly when the
    provider is "tawk" (the default) and both identifiers are strings that
    are not empty, and then the script it will inject has both in its
    address; it mounts the engine exactly when the provider is "veeyaa",
    whatever the identifiers; it renders nothing exactly when it logs, and
    then it logs one warning. *)
Theorem X10_dispatcher (cp : Dispatcher.ChatbotProps) :
  ((∃ p, fst (Dispatcher.Chatbot cp) = Dispatcher.TawkElement p) ↔
   default (js "tawk") (Dispatcher.provider cp) = js "tawk" ∧
   (∃ s, Dispatcher.tawkPropertyId cp = Some s ∧ s ≠ []) ∧
   (∃ s, Dispatcher.tawkWidgetId cp = Some s ∧ s ≠ [])) ∧
  (∀ p hide, fst (Dispatcher.Chatbot cp) = Dispatcher.TawkElement p →
     Dispatcher.tawkPropertyId cp = Some (propertyId p) ∧
     Dispatcher.tawkWidgetId cp = Some (widgetId p) ∧
     propertyId p ≠ [] ∧ widgetId p ≠ [] ∧
     src (scriptFor p hide) =
       js "https://embed.tawk.to/" ++ propertyId p ++ js "/" ++ widgetId p) ∧
  ((∃ v, fst (Dispatcher.Chatbot cp) = Dispatcher.VeeyaaElement v) ↔
   Dispatcher.provider cp = Some (js "veeyaa")) ∧
  (fst (Dispatcher.Chatbot cp) = Dispatcher.Null ↔
   ∃ m, snd (Dispatcher.Chatbot cp) = [ConsoleWarn m None]) ∧
  (fst (Dispatcher.Chatbot cp) ≠ Dispatcher.Null → snd (Dispatcher.Chatbot cp) = []).
Proof.
  assert (js "tawk" ≠ js "veeyaa") as Htv by (by vm_compute).
  assert (Dispatcher.provider cp = Some (js "veeyaa") ↔
          default (js "tawk") (Dispatcher.provider cp) = js "veeyaa") as Hv.
  { destruct (Dispatcher.provider cp); cbn [from_option id]; [split; congruence|].
    split; [done | by intros ?%Htv]. }
  pose proof (truthyProp_spec (Dispatcher.tawkPropertyId cp)) as Hp.
  pose proof (truthyProp_spec (Dispatcher.tawkWidgetId cp)) as Hw.
  unfold Dispatcher.Chatbot.
  case_bool_decide as Et.
  - assert (Dispatcher.provider cp ≠ Some (js "veeyaa")) as Hnv.
    { rewrite Hv, Et. exact Htv. }
    destruct (Dispatcher.truthyProp (Dispatcher.tawkPropertyId cp)) eqn:Ep;
      [destruct (Dispatcher.truthyProp (Dispatcher.tawkWidgetId cp)) eqn:Ew|];
      cbn [negb orb fst snd].
    + destruct (proj1 Hp eq_refl) as (s1 & E1 & H1).
      destruct (proj1 Hw eq_refl) as (s2 & E2 & H2).
      rewrite E1, E2. cbn [from_option id].
      split; [split; [intros _; eauto 10 | eauto]|].
      split; [by intros p hide [= <-]|].
      split; [split; [by intros [v ?] | done]|].
      split; [split; [done | by intros [m ?]] | done].
    + split; [split; [by intros [p ?]|]|].
      { intros (_ & _ & Hs). by apply Hw in Hs. }
      split; [done|]. split; [split; [by intros [v ?] | done]|].
      split; [split; [intros _; eauto | done] | done].
    + split; [split; [by intros [p ?]|]|].
      { intros (_ & Hs & _). by apply Hp in Hs. }
      split; [done|]. split; [split; [by intros [v ?] | done]|].
      split; [split; [intros _; eauto | done] | done].
  - case_bool_decide as Ev; cbn [fst snd].
    + split; [split; [by intros [p ?] | by intros [? _]]|].
      split; [done|]. split; [split; [by rewrite Hv | eauto]|].
      split; [split; [done | by intros [m ?]] | done].
    + split; [split; [by intros [p ?] | by intros [? _]]|].
      split; [done|]. split; [split; [by intros [v ?] | by rewrite Hv]|].
      split; [split; [intros _; eauto | done] | done].
Qed.

(* ===================================================================== *)
(** * The send button, the keyboard and the panel *)
(* ===================================================================== *)

Lemma truthy_ne (s : jsstring) : truthy s = true ↔ s ≠ [].
Proof. by destruct s. Qed.

(** What [handleSendMessage] takes for a go-ahead. *)
Lemma send_changes (onMessage : HostFn) (inst : nat) (w : Page) :
  handleSendMessage onMessage inst w ≠ w ↔
  ∃ st, instances w !! inst = Some st ∧ trim (inputValue st) ≠ [] ∧ isTyping st = false.
Proof.
  destruct (instances w !! inst) as [st|] eqn:E.
  - destruct (negb (truthy (trim (inputValue st))) || isTyping st) eqn:G.
    + unfold handleSendMessage. rewrite E, G. split; [done|].
      intros (st' & [= <-] & Hne%truthy_ne & Hty). by rewrite Hne, Hty in G.
    + apply orb_false_iff in G as [Hdraft%negb_false_iff%truthy_ne Hty]. split.
      * intros _. eauto.
      * intros _ Heq.
        destruct (send_state onMessage inst w st E Hdraft Hty) as (Hi & _).
        rewrite Heq in Hi. apply (f_equal (λ m, isTyping <$> m !! inst)) in Hi.
        cbn beta in Hi. rewrite lookup_insert_eq, E in Hi. simpl in Hi. congruence.
  - unfold handleSendMessage. rewrite E. split; [done|]. by intros (st & ? & _).
Qed.

(** X11. The send button is disabled exactly when pressing it would do
    nothing: whenever the window of a mounted instance is shown, its button
    is disabled if and only if [handleSendMessage] leaves the page as it
    is; and a disabled input always comes with a disabled button. *)
Theorem X11_send_button (onMessage : HostFn) (routes : list jsstring) (pathname : jsstring)
    (inst : nat) (w : Page) (st : ConversationState) (view : WindowView) :
  instances w !! inst = Some st →
  render routes pathname st = Some (Some view) →
  (sendDisabled view = true ↔ handleSendMessage onMessage inst w = w) ∧
  (inputDisabled view = true → sendDisabled view = true).
Proof.
  intros Hst Hview. unfold render in Hview.
  destruct (shouldHide routes pathname); [done|].
  destruct (isOpen st); [|done]. injection Hview as <-. cbn [sendDisabled inputDisabled].
  split; [|intros ->; apply orb_true_r].
  destruct (negb (truthy (trim (inputValue st))) || isTyping st) eqn:G.
  - split; [|done]. intros _. unfold handleSendMessage. by rewrite Hst, G.
  - split; [done|]. intros Heq. exfalso. revert Heq. apply send_changes.
    apply orb_false_iff in G as [Hdraft%negb_false_iff%truthy_ne Hty]. eauto.
Qed.

Lemma X11_send_button_witness :
  let w := updateDraft 0 (js "  ") (toggleChat 0 (fst (mountVeeyaa (freshPage NoHandler (js "Home") 0)))) in
  ∃ view, render [js "/customer"] (js "/") (mkConversation true [mkMessage 1 welcomeText bot 0] (js "  ") false)
            = Some (Some view) ∧
          sendDisabled view = true ∧ handleSendMessage Returns 0 w = w.
Proof.
  intros w. eexists. split; [reflexivity|].
  split; [reflexivity|].
  eapply (X11_send_button Returns [js "/customer"] (js "/") 0 w); [reflexivity..].
Defined.

(** X12. A key press sends exactly when the button would: the page
    changes if and only if the key is Enter without Shift, the instance is
    mounted, the trimmed draft is not empty and no reply is waited for;
    the default action of the key is prevented for every Enter without
    Shift, sent or not, and for no other key. *)
Theorem X12_key_press (onMessage : HostFn) (inst : nat) (e : KeyEvent) (w : Page) :
  (fst (handleKeyPress onMessage inst e w) ≠ w ↔
   key e = js "Enter" ∧ shiftKey e = false ∧
   ∃ st, instances w !! inst = Some st ∧ trim (inputValue st) ≠ [] ∧ isTyping st = false) ∧
  (fst (handleKeyPress onMessage inst e w) ≠ w →
   fst (handleKeyPress onMessage inst e w) = handleSendMessage onMessage inst w) ∧
  (snd (handleKeyPress onMessage inst e w) = true ↔
   key e = js "Enter" ∧ shiftKey e = false).
Proof.
  unfold handleKeyPress. case_bool_decide as Hk; destruct (shiftKey e); cbn [andb negb fst snd].
  - split; [split; [done | by intros (_ & ? & _)]|]. split; [done|]. split; [done | by intros [_ ?]].
  - rewrite send_changes. split; [split; [by intros ? | by intros (_ & _ & ?)]|].
    split; done.
  - split; [split; [done | by intros (? & _)]|]. split; [done|]. split; [done | by intros [? _]].
  - split; [split; [done | by intros (? & _)]|]. split; [done|]. split; [done | by intros [? _]].
Qed.

Lemma closeWhenHidden_shown routes pathname inst w :
  shouldHide routes pathname = false → closeWhenHidden routes pathname inst w = w.
Proof.
  intros H. unfold closeWhenHidden. rewrite H. by destruct (instances w !! inst).
Qed.

(** X13. On a hidden route nothing of the engine is rendered and the
    panel's effect leaves the panel closed, keeping the transcript, the
    draft, the typing flag and every timer; run again it changes nothing;
    and back on a route that is not hidden only the toggle button shows,
    the window stays closed until the user opens it. *)
Theorem X13_hidden_route_closes (routes : list jsstring) (pathname : jsstring)
    (inst : nat) (w : Page) (st : ConversationState) :
  instances w !! inst = Some st →
  shouldHide routes pathname = true →
  let w' := closeWhenHidden routes pathname inst w in
  render routes pathname st = None ∧
  instances w' !! inst =
    Some (mkConversation false (messages st) (inputValue st) (isTyping st)) ∧
  (∀ other, other ≠ inst → instances w' !! other = instances w !! other) ∧
  timers w' = timers w ∧ trace w' = trace w ∧
  closeWhenHidden routes pathname inst w' = w' ∧
  (∀ routes' pathname' st',
     instances w' !! inst = Some st' →
     shouldHide routes' pathname' = false →
     render routes' pathname' st' = Some None ∧
     closeWhenHidden routes' pathname' inst w' = w').
Proof.
  intros Hst Hhide w'.
  assert (instances w' !! inst =
          Some (mkConversation false (messages st) (inputValue st) (isTyping st))) as Hst'.
  { unfold w', closeWhenHidden. rewrite Hst, Hhide. destruct st as [[] ms d ty]; simpl.
    - by rewrite lookup_insert_eq.
    - done. }
  split; [unfold render; by rewrite Hhide|]. split; [exact Hst'|].
  split; [|split; [|split; [|split]]].
  - intros other Hne. unfold w', closeWhenHidden. rewrite Hst, Hhide.
    destruct (isOpen st); simpl; [by rewrite lookup_insert_ne | done].
  - unfold w', closeWhenHidden. rewrite Hst, Hhide. by destruct (isOpen st).
  - unfold w', closeWhenHidden. rewrite Hst, Hhide. by destruct (isOpen st).
  - unfold closeWhenHidden at 1. rewrite Hst', Hhide. done.
  - intros routes' pathname' st' Hst'' Hshow. rewrite Hst' in Hst''. injection Hst'' as <-.
    split; [unfold render; by rewrite Hshow | by apply closeWhenHidden_shown].
Qed.

Lemma X13_hidden_route_closes_witness :
  let w := toggleChat 0 (fst (mountVeeyaa (freshPage NoHandler (js "Home") 0))) in
  instances (closeWhenHidden [js "/customer"] (js "/customer/7") 0 w) !! 0%nat =
    Some (mkConversation false [mkMessage 1 welcomeText bot 0] [] false).
Proof.
  intros w.
  apply (X13_hidden_route_closes [js "/customer"] (js "/customer/7") 0 w
           (mkConversation true [mkMessage 1 welcomeText bot 0] [] false));
    reflexivity.
Defined.

(* ===================================================================== *)
(** * The transcript *)
(* ===================================================================== *)

(** ** [trim] of a trimmed string *)

Lemma trimStart_fixed (s : jsstring) :
  (∀ c r, s = c :: r → isWhiteSpace c = false) → trimStart s = s.
Proof. destruct s as [|c r]; [done|]. intros H. simpl. by rewrite (H c r). Qed.

Lemma trimStart_suffix (s : jsstring) : ∃ ws, s = ws ++ trimStart s.
Proof.
  induction s as [|c s [ws IH]]; [by exists []|]. simpl. destruct (isWhiteSpace c).
  - exists (c :: ws). simpl. by f_equal.
  - by exists [].
Qed.

Lemma trimStart_idem (s : jsstring) : trimStart (trimStart s) = trimStart s.
Proof. apply trimStart_fixed. intros c r H. by apply (trimStart_head s c r). Qed.

Lemma trim_idem (s : jsstring) : trim (trim s) = trim s.
Proof.
  unfold trim. set (a := trimStart s). set (b := trimStart (reverse a)).
  assert (trimStart (reverse b) = reverse b) as ->.
  { apply trimStart_fixed. intros c r Hb.
    destruct (trimStart_suffix (reverse a)) as [ws Hws]. fold b in Hws.
    apply (f_equal reverse) in Hws. rewrite reverse_involutive, reverse_app, Hb in Hws.
    apply (trimStart_head s c (r ++ reverse ws)). fold a. by rewrite Hws. }
  rewrite reverse_involutive. unfold b. by rewrite trimStart_idem.
Qed.

(** ** The shape is kept by a send and by a reply *)

Lemma transcriptOk_ext (st st' : ConversationState) :
  messages st' = messages st → isTyping st' = isTyping st →
  transcriptOk st → transcriptOk st'.
Proof. unfold transcriptOk. by intros -> ->. Qed.

Lemma transcriptOk_user (st : ConversationState) o d s t :
  transcriptOk st → isTyping st = false → trimmedText s →
  transcriptOk (mkConversation o
                  (messages st ++ [mkMessage (length (messages st) + 1) s user t]) d true).
Proof.
  intros (Hne & Hall & Hty) Hidle Hs. split; [|split]; cbn [messages isTyping].
  - by destruct (messages st).
  - intros i m Hi. apply lookup_app_Some in Hi as [Hi | [Hge Hi]]; [by apply Hall|].
    apply list_lookup_singleton_Some in Hi as [Hi <-].
    assert (i = length (messages st)) as -> by lia.
    unfold messageOk. cbn [msg_id sender text]. split; [lia|].
    by rewrite <- Hty, Hidle.
  - rewrite length_app. cbn [length]. rewrite Nat.add_1_r, Nat.even_succ, <- Nat.negb_even.
    by rewrite <- Hty, Hidle.
Qed.

Lemma transcriptOk_bot (st : ConversationState) t :
  transcriptOk st → isTyping st = true →
  transcriptOk (replied (S (length (messages st))) t st).
Proof.
  intros (Hne & Hall & Hty) Hbusy. unfold replied. split; [|split]; cbn [messages isTyping].
  - by destruct (messages st).
  - intros i m Hi. apply lookup_app_Some in Hi as [Hi | [Hge Hi]]; [by apply Hall|].
    apply list_lookup_singleton_Some in Hi as [Hi <-].
    assert (i = length (messages st)) as -> by lia.
    unfold messageOk. cbn [msg_id sender text]. split; [done|].
    rewrite <- Hty, Hbusy. split; [done|]. by destruct (messages st).
  - rewrite length_app. cbn [length]. rewrite Nat.add_1_r, Nat.even_succ, <- Nat.negb_even.
    by rewrite <- Hty, Hbusy.
Qed.

Lemma positional_NoDup (ms : list Message) :
  (∀ i m, ms !! i = Some m → msg_id m = S i) → NoDup (msg_id <$> ms).
Proof.
  intros H. apply NoDup_alt. intros i j x Hi Hj.
  rewrite list_lookup_fmap in Hi, Hj.
  destruct (ms !! i) as [mi|] eqn:Ei; [|done]. destruct (ms !! j) as [mj|] eqn:Ej; [|done].
  simpl in Hi, Hj. rewrite (H i mi Ei) in Hi. rewrite (H j mj Ej) in Hj. congruence.
Qed.

(** ** The invariant along the steps *)

Lemma nil_has_no (inst : nat) (st : ConversationState) (w : Page) :
  pendingReplies inst w = [] → replyIdOk inst st w.
Proof. intros Hp T b HT. rewrite Hp in HT. by apply elem_of_nil in HT. Qed.

Lemma transcriptInv_frame w w' :
  instances w' = instances w →
  (∀ inst, pendingReplies inst w' = pendingReplies inst w) →
  transcriptInv w → transcriptInv w'.
Proof.
  intros Hi Hp H inst st Hst. rewrite Hi in Hst. destruct (H inst st Hst) as [H1 H2].
  split; [done|]. intros T b. rewrite Hp. apply H2.
Qed.

Lemma transcriptInv_update i st0 st1 w :
  instances w !! i = Some st0 →
  messages st1 = messages st0 → isTyping st1 = isTyping st0 →
  transcriptInv w →
  transcriptInv (setInstances (<[i := st1]> (instances w)) (nextInstance w) w).
Proof.
  intros H0 Hm Ht H inst st Hst. cbn in Hst.
  change (replyIdOk inst st (setInstances _ _ w)) with (replyIdOk inst st w).
  destruct (decide (inst = i)) as [-> | Hne].
  - rewrite lookup_insert_eq in Hst. injection Hst as <-.
    destruct (H i st0 H0) as [H1 H2]. split; [by eapply transcriptOk_ext|].
    intros T b. rewrite Hm. apply H2.
  - rewrite lookup_insert_ne in Hst by done. by apply H.
Qed.

Lemma transcriptInv_tick w : engineInv w → transcriptInv w → transcriptInv (tick w).
Proof.
  intros Hinv H inst st' Hst'. specialize (Hinv inst).
  destruct (instances w !! inst) as [st|] eqn:E;
    [|by rewrite (tick_unmounted inst w E) in Hst'].
  destruct (H inst st E) as [Hok Hid]. destruct Hinv as [_ Hinv].
  destruct (isTyping st) eqn:Ety.
  - destruct Hinv as [Hp | (T & Hp & Hint & Hdue)].
    { destruct (tick_idle inst w Hp) as [Hp' Hi'].
      rewrite Hi', E in Hst'. injection Hst' as <-. split; [done | by apply nil_has_no]. }
    destruct (pending_is_reply inst w T) as [b Hcb];
      [rewrite Hp; apply list_elem_of_here|].
    assert (b = S (length (messages st))) as Hb.
    { apply (Hid T); [rewrite Hp; apply list_elem_of_here | done]. }
    destruct (decide (due T = now w + 1)) as [Hd | Hd].
    + destruct (tick_reply inst T b w Hp Hd Hcb Hint) as (_ & Hp' & Hi').
      rewrite Hi', E in Hst'. cbn [fmap option_fmap option_map] in Hst'.
      injection Hst' as <-. split; [|by apply nil_has_no].
      rewrite Hb. by apply transcriptOk_bot.
    + destruct (tick_waiting inst T w Hp) as [Hp' Hi']; [lia|].
      rewrite Hi', E in Hst'. injection Hst' as <-. split; [done|].
      intros T' b'. rewrite Hp', <- Hp. apply Hid.
  - destruct (tick_idle inst w Hinv) as [Hp' Hi'].
    rewrite Hi', E in Hst'. injection Hst' as <-. split; [done | by apply nil_has_no].
Qed.

Lemma transcriptInv_mount w :
  engineInv w → transcriptInv w → transcriptInv (fst (mountVeeyaa w)).
Proof.
  intros Hinv H inst st Hst. cbn in Hst.
  change (replyIdOk inst st (fst (mountVeeyaa w))) with (replyIdOk inst st w).
  destruct (decide (inst = nextInstance w)) as [-> | Hne].
  - rewrite lookup_insert_eq in Hst. injection Hst as <-. split.
    + split; [done|]. split; [|done]. intros i m Hi.
      destruct i as [|i]; [|done]. injection Hi as <-. done.
    + apply nil_has_no. specialize (Hinv (nextInstance w)).
      destruct (instances w !! nextInstance w); [destruct Hinv; lia | by apply Hinv].
  - rewrite lookup_insert_ne in Hst by done. by apply H.
Qed.

Lemma transcriptInv_unmount i w : transcriptInv w → transcriptInv (unmountVeeyaa i w).
Proof.
  intros H inst st Hst. cbn in Hst.
  change (replyIdOk inst st (unmountVeeyaa i w)) with (replyIdOk inst st w).
  apply lookup_delete_Some in Hst as [_ Hst]. by apply H.
Qed.

Lemma transcriptInv_send onMessage i w :
  engineInv w → transcriptInv w → transcriptInv (handleSendMessage onMessage i w).
Proof.
  intros Hinv H. destruct (instances w !! i) as [st|] eqn:E;
    [|unfold handleSendMessage; by rewrite E].
  destruct (negb (truthy (trim (inputValue st))) || isTyping st) eqn:G;
    [unfold handleSendMessage; by rewrite E, G|].
  apply orb_false_iff in G as [Hdraft%negb_false_iff%truthy_ne Hty].
  pose proof (Hinv i) as Hi. rewrite E, Hty in Hi. destruct Hi as [_ Hidle].
  destruct (send_state onMessage i w st E Hdraft Hty) as (Hinst & _).
  destruct (H i st E) as [Hok _].
  intros inst st' Hst'. rewrite Hinst in Hst'.
  destruct (decide (onMessage = Throws)) as [-> | Hsink].
  - assert (pendingReplies inst (handleSendMessage Throws i w) = pendingReplies inst w)
      as Hsame.
    { unfold pendingReplies. by destruct (send_threw i w) as [-> _]. }
    destruct (decide (inst = i)) as [-> | Hne].
    + rewrite lookup_insert_eq in Hst'. injection Hst' as <-. split.
      * apply transcriptOk_user; [done | done | split; [done | apply trim_idem]].
      * apply nil_has_no. by rewrite Hsame.
    + rewrite lookup_insert_ne in Hst' by done. destruct (H inst st' Hst') as [H1 H2].
      split; [done|]. intros T b. rewrite Hsame. apply H2.
  - destruct (send_result onMessage i w st E Hdraft Hty Hsink) as (_ & Htm & _).
    destruct (decide (inst = i)) as [-> | Hne].
    + rewrite lookup_insert_eq in Hst'. injection Hst' as <-. split.
      * apply transcriptOk_user; [done | done | split; [done | apply trim_idem]].
      * intros T b. rewrite (send_pending onMessage i w st E Hdraft Hty Hsink Hidle).
        intros ->%list_elem_of_singleton Hcb. cbn [callback] in Hcb. injection Hcb as <-.
        cbn [messages]. rewrite length_app. cbn [length]. lia.
    + rewrite lookup_insert_ne in Hst' by done. destruct (H inst st' Hst') as [H1 H2].
      split; [done|]. intros T b. rewrite (pendingReplies_push inst w _ _ Htm); [apply H2|].
      unfold isBotReplyFor. cbn [callback]. by apply bool_decide_eq_false.
Qed.

Lemma pageStep_transcript w w' :
  pageStep w w' →
  idsOk (timers w) (nextTimer w) → engineInv w → transcriptInv w → transcriptInv w'.
Proof.
  intros Hstep Hids Hinv H. destruct Hstep.
  - by apply transcriptInv_tick.
  - destruct (scriptOnload_engine s w) as (Hi & _ & _ & Hp & _).
    by apply (transcriptInv_frame w).
  - apply (transcriptInv_frame w); [..|exact H];
      unfold scriptOnerror; by destruct (supplied (script_onError s)).
  - destruct (reportError_shape a w) as (es & -> & _). by apply (transcriptInv_frame w).
  - by apply (transcriptInv_frame w).
  - by apply (transcriptInv_frame w).
  - by apply (transcriptInv_frame w).
  - destruct (effect_engine p pathname w) as (Hi & _ & _ & Hp & _).
    by apply (transcriptInv_frame w).
  - apply (transcriptInv_frame w); [done | | exact H]. by apply cleanup_engine.
  - by apply transcriptInv_mount.
  - by apply transcriptInv_unmount.
  - unfold updateDraft. destruct (instances w !! inst) as [st|] eqn:E; [|done].
    by apply (transcriptInv_update inst st).
  - by apply transcriptInv_send.
  - unfold toggleChat. destruct (instances w !! inst) as [st|] eqn:E; [|done].
    by apply (transcriptInv_update inst st).
  - unfold closeWhenHidden. destruct (instances w !! inst) as [st|] eqn:E; [|done].
    destruct (_ && _); [|done]. by apply (transcriptInv_update inst st).
Qed.

Lemma pageStep_full w w' :
  pageStep w w' →
  idsOk (timers w) (nextTimer w) ∧ engineInv w ∧ transcriptInv w →
  idsOk (timers w') (nextTimer w') ∧ engineInv w' ∧ transcriptInv w'.
Proof.
  intros Hstep (Hids & Hinv & H).
  destruct (pageStep_inv w w' Hstep (conj Hids Hinv)) as [Hids' Hinv'].
  split; [done|]. split; [done|]. by apply (pageStep_transcript w).
Qed.

Lemma reachable_full w :
  reachable w → idsOk (timers w) (nextTimer w) ∧ engineInv w ∧ transcriptInv w.
Proof.
  intros (host & documentTitle & clock & Hsteps).
  assert (idsOk (timers (freshPage host documentTitle clock))
                (nextTimer (freshPage host documentTitle clock)) ∧
          engineInv (freshPage host documentTitle clock) ∧
          transcriptInv (freshPage host documentTitle clock)) as H0.
  { split; [split; [apply NoDup_nil_2 | constructor]|]. split.
    - intros inst. simpl. by rewrite lookup_empty.
    - intros inst st Hst. simpl in Hst. by rewrite lookup_empty in Hst. }
  revert H0. induction Hsteps as [w | w w1 w2 Hstep _ IH]; [done|].
  intros H0. by apply IH, (pageStep_full w w1).
Qed.

(** X14. In every page of a process, the transcript of a
    mounted instance opens with the welcome message; the [id] of every
    message is its position counted from 1, so the ids, which the view
    uses as keys, are distinct; the bot and the user alternate, the user's
    texts being trimmed and not empty and the bot's the fixed reply; and a
    reply is waited for exactly when the user spoke last. *)
Theorem X14_transcript_shape (w : Page) (inst : nat) (st : ConversationState) :
  reachable w → instances w !! inst = Some st →
  (∃ t, head (messages st) = Some (mkMessage 1 welcomeText bot t)) ∧
  (∀ i m, messages st !! i = Some m → messageOk i m) ∧
  NoDup (msg_id <$> messages st) ∧
  isTyping st = Nat.even (length (messages st)).
Proof.
  intros (_ & _ & H)%reachable_full Hst.
  destruct (H inst st Hst) as [(Hne & Hall & Hty) _].
  split; [|split; [done|split; [|done]]].
  - destruct (messages st) as [|m ms] eqn:E; [done|].
    destruct (Hall 0%nat m eq_refl) as (Hid & Hs & Ht). cbn in Hid, Hs, Ht.
    exists (timestamp m). destruct m as [? ? ? ?]. cbn in *. by subst.
  - apply positional_NoDup. intros i m Hi. by destruct (Hall i m Hi).
Qed.

Lemma X14_transcript_shape_witness :
  NoDup (msg_id <$> [mkMessage 1 welcomeText bot 0; mkMessage 2 (js "Hello") user 0]) ∧
  true = Nat.even 2.
Proof.
  destruct (X14_transcript_shape sentPage 0
              (mkConversation true
                 [mkMessage 1 welcomeText bot 0; mkMessage 2 (js "Hello") user 0] [] true))
    as (_ & _ & H1 & H2).
  - destruct draftPage_reachable as (host & documentTitle & clock & Hsteps).
    exists host, documentTitle, clock.
    eapply rtc_r; [exact Hsteps | apply (step_send Returns 0)].
  - by vm_compute.
  - split; [exact H1 | exact H2].
Defined.

(** ** The transcript only grows *)

Lemma engineInv_bound w inst st :
  engineInv w → instances w !! inst = Some st → (inst < nextInstance w)%nat.
Proof. intros H Hst. specialize (H inst). rewrite Hst in H. by destruct H. Qed.

Lemma continues_same w w' :
  instances w' = instances w → nextInstance w' = nextInstance w → continues w w'.
Proof.
  intros Hi Hn. split; [lia|]. intros inst st' Hst'. rewrite Hi in Hst'. by rewrite Hst'.
Qed.

Lemma continues_update i st0 st1 w :
  instances w !! i = Some st0 → messages st0 `prefix_of` messages st1 →
  continues w (setInstances (<[i := st1]> (instances w)) (nextInstance w) w).
Proof.
  intros H0 Hpre. split; [done|]. intros inst st' Hst'. cbn in Hst'.
  destruct (decide (inst = i)) as [-> | Hne].
  - rewrite lookup_insert_eq in Hst'. injection Hst' as <-. by rewrite H0.
  - rewrite lookup_insert_ne in Hst' by done. by rewrite Hst'.
Qed.

Lemma continues_trans w1 w2 w3 :
  (∀ inst st, instances w1 !! inst = Some st → (inst < nextInstance w1)%nat) →
  continues w1 w2 → continues w2 w3 → continues w1 w3.
Proof.
  intros Hb [Hn12 H12] [Hn23 H23]. split; [lia|]. intros inst st3 H3.
  specialize (H23 inst st3 H3). destruct (instances w2 !! inst) as [st2|] eqn:E2.
  - specialize (H12 inst st2 E2). destruct (instances w1 !! inst); [by etrans | done].
  - destruct (instances w1 !! inst) as [st1|] eqn:E1; [|lia].
    specialize (Hb inst st1 E1). lia.
Qed.

Lemma fire_grows w tm inst st' :
  instances (fire w tm) !! inst = Some st' →
  ∃ st, instances w !! inst = Some st ∧ messages st `prefix_of` messages st'.
Proof.
  intros Hst'. destruct (isBotReplyFor inst tm) eqn:Eb.
  - unfold isBotReplyFor in Eb. destruct (callback tm) as [| |i b] eqn:Ecb; try done.
    apply bool_decide_eq_true in Eb as ->.
    rewrite (fire_lookup_reply inst w tm b Ecb) in Hst'.
    destruct (instances w !! inst) as [st|]; [|done].
    injection Hst' as <-. exists st. split; [done|]. by apply prefix_app_r.
  - rewrite (fire_lookup_other inst w tm Eb) in Hst'. eauto.
Qed.

Lemma foldl_fire_grows l w inst st' :
  instances (foldl fire w l) !! inst = Some st' →
  ∃ st, instances w !! inst = Some st ∧ messages st `prefix_of` messages st'.
Proof.
  revert w. induction l as [|tm l IH]; intros w Hst'; [eauto|].
  destruct (IH _ Hst') as (st1 & H1 & Hp1).
  destruct (fire_grows w tm inst st1 H1) as (st & H0 & Hp0).
  exists st. split; [done | by etrans].
Qed.

Lemma pageStep_continues w w' : engineInv w → pageStep w w' → continues w w'.
Proof.
  intros Hinv Hstep. destruct Hstep.
  - split; [by rewrite tick_nextInstance|]. intros i st' Hst'.
    unfold tick in Hst'. apply foldl_fire_grows in Hst' as (st & Hst & Hpre).
    cbn in Hst. by rewrite Hst.
  - apply continues_same; unfold scriptOnload; by destruct (script_onLoad s).
  - apply continues_same; unfold scriptOnerror; by destruct (supplied (script_onError s)).
  - destruct (reportError_shape a w) as (es & -> & _). by apply continues_same.
  - by apply continues_same.
  - by apply continues_same.
  - by apply continues_same.
  - destruct (effect_engine p pathname w) as (Hi & Hn & _). by apply continues_same.
  - by apply continues_same.
  - split; [cbn; lia|]. intros i st' Hst'. cbn in Hst'.
    destruct (decide (i = nextInstance w)) as [-> | Hne].
    + destruct (instances w !! nextInstance w) as [st|] eqn:E; [|done].
      pose proof (engineInv_bound w _ st Hinv E). lia.
    + rewrite lookup_insert_ne in Hst' by done. by rewrite Hst'.
  - split; [done|]. intros i st' Hst'. cbn in Hst'.
    apply lookup_delete_Some in Hst' as [_ Hst']. by rewrite Hst'.
  - unfold updateDraft. destruct (instances w !! inst) as [st|] eqn:E;
      [by apply (continues_update inst st) | by apply continues_same].
  - destruct (instances w !! inst) as [st|] eqn:E;
      [|unfold handleSendMessage; rewrite E; by apply continues_same].
    destruct (negb (truthy (trim (inputValue st))) || isTyping st) eqn:G;
      [unfold handleSendMessage; rewrite E, G; by apply continues_same|].
    pose proof G as G'.
    apply orb_false_iff in G as [Hdraft%negb_false_iff%truthy_ne Hty].
    destruct (send_state onMessage inst w st E Hdraft Hty) as (Hinst & Hnext & _).
    split; [by rewrite Hnext|].
    intros i st' Hst'. rewrite Hinst in Hst'.
    destruct (decide (i = inst)) as [-> | Hne].
    + rewrite lookup_insert_eq in Hst'. injection Hst' as <-. rewrite E.
      by apply prefix_app_r.
    + rewrite lookup_insert_ne in Hst' by done. by rewrite Hst'.
  - unfold toggleChat. destruct (instances w !! inst) as [st|] eqn:E;
      [by apply (continues_update inst st) | by apply continues_same].
  - unfold closeWhenHidden. destruct (instances w !! inst) as [st|] eqn:E;
      [|by apply continues_same].
    destruct (_ && _); [by apply (continues_update inst st) | by apply continues_same].
Qed.

Lemma pageSteps_continues w w' :
  idsOk (timers w) (nextTimer w) ∧ engineInv w ∧ transcriptInv w →
  rtc pageStep w w' → continues w w'.
Proof.
  intros H Hsteps. induction Hsteps as [w | w w1 w2 Hstep _ IH]; [by apply continues_same|].
  pose proof H as (_ & Hinv & _).
  apply (continues_trans w w1 w2).
  - intros inst st. by apply engineInv_bound.
  - by apply pageStep_continues.
  - by apply IH, (pageStep_full w w1).
Qed.

(** X15. A transcript only grows: whatever happens on the page between
    two moments (time passing, sends, replies, drafts, the panel opening or
    closing, other instances mounting or unmounting, the controller
    working), the messages an instance showed at the first are the first
    messages it shows at the second, unchanged and in the same order; and
    an instance that was unmounted never comes back. *)
Theorem X15_transcript_only_grows (w w' : Page) (inst : nat) :
  reachable w → rtc pageStep w w' →
  (∀ st st', instances w !! inst = Some st → instances w' !! inst = Some st' →
             messages st `prefix_of` messages st') ∧
  ((inst < nextInstance w)%nat → instances w !! inst = None →
   instances w' !! inst = None).
Proof.
  intros Hinv%reachable_full Hsteps.
  destruct (pageSteps_continues w w' Hinv Hsteps) as [Hn H]. split.
  - intros st st' Hst Hst'. specialize (H inst st' Hst'). by rewrite Hst in H.
  - intros Hlt Hnone. destruct (instances w' !! inst) as [st'|] eqn:E; [|done].
    specialize (H inst st' E). rewrite Hnone in H. lia.
Qed.

Lemma X15_transcript_only_grows_witness :
  let w := toggleChat 0 (fst (mountVeeyaa (freshPage NoHandler (js "Home") 0))) in
  let w' := handleSendMessage NotSupplied 0 (updateDraft 0 (js " hi ") w) in
  [mkMessage 1 welcomeText bot 0] `prefix_of`
    [mkMessage 1 welcomeText bot 0; mkMessage 2 (js "hi") user 0].
Proof.
  intros w w'.
  destruct (X15_transcript_only_grows w w' 0) as [H _].
  - exists NoHandler, (js "Home"), 0.
    eapply rtc_l; [apply step_mount|].
    eapply rtc_l; [apply (step_toggle 0) | apply rtc_refl].
  - eapply rtc_l; [apply (step_draft 0 (js " hi "))|].
    eapply rtc_l; [apply (step_send NotSupplied 0) | apply rtc_refl].
  - apply (H (mkConversation true [mkMessage 1 welcomeText bot 0] [] false)
             (mkConversation true [mkMessage 1 welcomeText bot 0;
                                   mkMessage 2 (js "hi") user 0] [] true));
      by vm_compute.
Defined.

(* ===================================================================== *)
(** * The route the loaded script reconciles with *)
(* ===================================================================== *)





(* ===================================================================== *)
(** * The panel and the passage of time *)
(* ===================================================================== *)

Lemma toggle_fire inst w tm : fire (toggleChat inst w) tm = toggleChat inst (fire w tm).
Proof.
  unfold fire. destruct w as [api ls oe el rl nf hs ti tms nt nw ins ni tr].
  destruct (callback tm) as [hide tp|t|i b].
  - unfold toggleChat, runCallback, hideChatbot, showChatbot. cbn.
    destruct (ins !! inst) as [st|] eqn:E; cbn; destruct hide, api as [a|]; cbn;
      rewrite ?E; try done;
      try destruct (hideWidget (targetOf a)); try destruct (showWidget (targetOf a));
      destruct (setAttributes (targetOf a)); cbn; rewrite ?E; try done;
      destruct (tp && _); cbn; by rewrite ?E.
  - unfold toggleChat, runCallback, titleCheck. cbn.
    destruct (ins !! inst) as [st|] eqn:E; cbn;
      repeat (case_match; cbn); simplify_eq; done.
  - unfold toggleChat, runCallback, botReply. cbn.
    destruct (decide (i = inst)) as [-> | Hne].
    + destruct (ins !! inst) as [st|] eqn:E; cbn; rewrite ?lookup_insert_eq, ?E; cbn;
        [|done]. by rewrite !insert_insert_eq.
    + destruct (ins !! inst) as [st|] eqn:E; destruct (ins !! i) as [sti|] eqn:Ei; cbn;
        rewrite ?lookup_insert_ne, ?E, ?Ei by done; cbn; try done.
      unfold setInstances, emit.
      cbn [Tawk_API Tawk_LoadStart onerror errorListeners rejectionListeners nextFn
           headScripts title timers nextTimer now instances nextInstance trace].
      f_equal. by apply insert_insert_ne.
Qed.

Lemma toggle_foldl_fire inst l w :
  foldl fire (toggleChat inst w) l = toggleChat inst (foldl fire w l).
Proof.
  revert w. induction l as [|tm l IH]; intros w; [done|].
  cbn [foldl]. by rewrite toggle_fire, IH.
Qed.

Lemma toggle_tick inst w : tick (toggleChat inst w) = toggleChat inst (tick w).
Proof.
  unfold tick. rewrite <- toggle_foldl_fire. f_equal; [|].
  - unfold toggleChat. cbn. by destruct (instances w !! inst).
  - unfold dueNow, toggleChat. by destruct (instances w !! inst).
Qed.

Lemma toggle_toggle inst w : toggleChat inst (toggleChat inst w) = w.
Proof.
  destruct w as [api ls oe el rl nf hs ti tms nt nw ins ni tr].
  unfold toggleChat. cbn. destruct (ins !! inst) as [st|] eqn:E; cbn; [|by rewrite E].
  rewrite lookup_insert_eq. cbn. rewrite insert_insert_eq, negb_involutive.
  unfold setInstances. cbn. f_equal. apply insert_id. rewrite E. by destruct st.
Qed.

(** X17. Opening or closing the panel interferes with nothing: it
    commutes with the passage of time, so a reply arrives the same with
    the panel closed, and the transcript, the draft, the controller's work
    and every timer are as they would be without it; doing it twice gives
    the page back. *)
Theorem X17_toggle_commutes (inst : nat) (w : Page) (k : nat) :
  advance k (toggleChat inst w) = toggleChat inst (advance k w) ∧
  toggleChat inst (toggleChat inst w) = w ∧
  (∀ onMessage, handleSendMessage onMessage inst (toggleChat inst w) =
                toggleChat inst (handleSendMessage onMessage inst w)).
Proof.
  split; [|split].
  - revert w. induction k as [|k IH]; intros w; [done|].
    cbn [advance]. by rewrite toggle_tick, IH.
  - apply toggle_toggle.
  - intros onMessage. destruct w as [api ls oe el rl nf hs ti tms nt nw ins ni tr].
    unfold toggleChat, handleSendMessage. cbn -[trim].
    destruct (ins !! inst) as [st|] eqn:E; cbn -[trim];
      rewrite ?lookup_insert_eq, ?E; cbn -[trim]; [|done].
    destruct (negb (truthy (trim (inputValue st))) || isTyping st) eqn:G; cbn -[trim];
      [by rewrite E|].
    destruct onMessage; cbn -[trim]; rewrite lookup_insert_eq; cbn -[trim];
      by rewrite !insert_insert_eq.
Qed.
